(** * DynSLAM instance tracks: a shallow embedding of [InstRecLib/Track.h]

    The development follows the header [src/DynSLAM/InstRecLib/Track.h]:
    the [TrackFrame] record, the [TrackState] enumeration and the [Track]
    class with its inline member functions.  C++ [int] values are integers
    with the 32-bit range written out, [double] and [float] values are
    IEEE-754 binary floats in the sense of [SpecFloat], the frame vector is
    a list indexed from zero, and a member function that can abort or run
    into undefined behaviour returns an [outcome]. *)

From Stdlib Require Import ZArith Lia Floats.SpecFloat.
From stdpp Require Import base list strings pretty.

Local Open Scope Z_scope.

(** ** Machine integers *)

Definition INT_MIN : Z := - 2 ^ 31.
Definition INT_MAX : Z := 2 ^ 31 - 1.

Definition int_range (z : Z) : Prop := INT_MIN <= z <= INT_MAX.

Definition int_rangeb (z : Z) : bool := (INT_MIN <=? z) && (z <=? INT_MAX).

(** [static_cast<int>] of an unsigned [size_t] value: reduction modulo
    [2^32] into the signed range. *)
Definition to_int (z : Z) : Z := (z + 2 ^ 31) mod 2 ^ 32 - 2 ^ 31.

(** ** Results of member functions

    [Returns a] is normal completion, [AssertionFailed msg] is an abort
    raised by a failing [assert], and [Undefined] stands for undefined
    behaviour: [back()] or [front()] of an empty vector, an index outside
    the vector, a dereference of a null or unassigned pointer, signed
    overflow, or a float-to-int conversion of an unrepresentable value. *)
Inductive outcome (A : Type) : Type :=
| Returns (a : A)
| AssertionFailed (msg : string)
| Undefined.

Arguments Returns {A} a.
Arguments AssertionFailed {A} msg.
Arguments Undefined {A}.

#[export] Instance outcome_ret : MRet outcome := fun _ a => Returns a.

#[export] Instance outcome_bind : MBind outcome := fun _ _ k m =>
  match m with
  | Returns a => k a
  | AssertionFailed msg => AssertionFailed msg
  | Undefined => Undefined
  end.

(** A string literal used as a condition decays to a pointer to its first
    character, which is never null, so it converts to [true]. *)
Definition literal_as_bool (s : string) : bool := true.

(** The [assert] macro (built without [NDEBUG]). *)
Definition assert (cond : bool) (text : string) : outcome unit :=
  if cond then Returns tt else AssertionFailed text.

(** ** Floating point

    [double] is binary64 and [float] is binary32, both with
    round-to-nearest-even as implemented by [SpecFloat]. *)

Definition double_prec : Z := 53.
Definition double_emax : Z := 1024.

(** Conversion of an [int] to [double]; every [int] is representable. *)
Definition double_of_int (n : Z) : spec_float :=
  binary_normalize double_prec double_emax n 0 false.

Definition double_mul : spec_float -> spec_float -> spec_float :=
  SFmul double_prec double_emax.

(** The literal [0.33], that is the binary64 number nearest to 33/100:
    [double_0_33_mantissa / 2^54]. *)
Definition double_0_33_mantissa : Z := 5944751508129055.

Definition double_0_33 : spec_float := S754_finite false 5944751508129055 (-54).

(** [static_cast<int>] of a [double]: the fractional part is discarded
    (truncation toward zero); the behaviour is undefined when the truncated
    value is not an [int], in particular for infinities and NaN. *)
Definition int_of_double (x : spec_float) : outcome Z :=
  match x with
  | S754_zero _ => Returns 0
  | S754_finite s m e =>
      let a := Z.shiftl (Z.pos m) e in
      let v := if s then - a else a in
      if int_rangeb v then Returns v else Undefined
  | S754_infinity _ | S754_nan => Undefined
  end.

Definition float_prec : Z := 24.
Definition float_emax : Z := 128.

(** The literal [0.20f], the binary32 number nearest to 1/5. *)
Definition float_0_20 : spec_float := S754_finite false 13421773 (-26).

Definition float_compare : spec_float -> spec_float -> option comparison :=
  SFcompare.

(** ** Collaborating types

    [Track.h] only names these types; their definitions live in other
    headers (Eigen, [InstanceView.h], [InfiniTamDriver.h]).  They are taken
    as parameters, together with the few operations used on them. *)
Class Collaborators : Type := {
  (** [Eigen::Matrix4f] *)
  Matrix4f : Type;
  (** [Eigen::Matrix4d], its identity and its product *)
  Matrix4d : Type;
  Matrix4d_Identity : Matrix4d;
  Matrix4d_mul : Matrix4d -> Matrix4d -> Matrix4d;
  (** [InstanceView], with [GetInstanceDetection().GetClassName()] *)
  InstanceView : Type;
  InstanceView_ClassName : InstanceView -> string;
  (** the [InfiniTamDriver] objects a [shared_ptr] can point to *)
  InfiniTamDriver : Type;
}.

(** Modelled from the spec: [dynslam::utils::Option<T>] of [Utils.h], an
    optional value that is either present or absent. *)
Definition Option (T : Type) : Type := option T.

Definition IsPresent {T : Type} (o : Option T) : bool :=
  match o with Some _ => true | None => false end.

Section TrackModel.

Context `{Collaborators}.

(** ** [struct TrackFrame]

    [relative_pose] is a raw pointer to an [Option].  [Some o] is a pointer
    to a live [Option] object holding [o]; [None] is a pointer that was
    never assigned, which is what the constructor leaves behind. *)
Record TrackFrame : Type := Build_TrackFrame {
  frame_idx : Z;
  instance_view : InstanceView;
  camera_pose : Matrix4f;
  relative_pose : option (Option Matrix4d);
}.

Definition TrackFrame_ctor (frame_idx : Z) (instance_view : InstanceView)
    (camera_pose : Matrix4f) : TrackFrame :=
  Build_TrackFrame frame_idx instance_view camera_pose None.

(** [p->...] on a raw pointer. *)
Definition deref {A : Type} (p : option A) : outcome A :=
  match p with
  | Some a => Returns a
  | None => Undefined
  end.

(** ** [enum TrackState] *)
Inductive TrackState : Type := kStatic | kDynamic | kUncertain.

(** ** [class Track]

    [reconstruction_] is the shared pointer: [None] is [nullptr].
    [last_known_motion_] is default-constructed by Eigen, which leaves its
    coefficients unset; [None] stands for that state. *)
Record Track : Type := Build_Track {
  kMaxUncertainFramesStatic : Z;
  kMaxUncertainFramesDynamic : Z;
  kTransErrorTreshold : spec_float;
  id_ : Z;
  frames_ : list TrackFrame;
  reconstruction_ : option InfiniTamDriver;
  needs_cleanup_ : bool;
  track_state_ : TrackState;
  last_known_motion_time_ : Z;
  last_known_motion_ : option Matrix4d;
  fused_frames_ : Z;
}.

(** [Track(int id)], with the default member initialisers. *)
Definition Track_ctor (id : Z) : Track := {|
  kMaxUncertainFramesStatic := 3;
  kMaxUncertainFramesDynamic := 2;
  kTransErrorTreshold := float_0_20;
  id_ := id;
  frames_ := [];
  reconstruction_ := None;
  needs_cleanup_ := false;
  track_state_ := kUncertain;
  last_known_motion_time_ := -1;
  last_known_motion_ := None;
  fused_frames_ := 0;
|}.

(** *** Vector primitives *)

(** [v.back()] *)
Definition vector_back {A : Type} (v : list A) : outcome A :=
  match last v with
  | Some a => Returns a
  | None => Undefined
  end.

(** [v.front()] *)
Definition vector_front {A : Type} (v : list A) : outcome A :=
  match v with
  | a :: _ => Returns a
  | [] => Undefined
  end.

(** [v[i]] with an [int] index: a negative index converts to a huge
    [size_t], so it is out of range like any index past the end. *)
Definition vector_at {A : Type} (v : list A) (i : Z) : outcome A :=
  if i <? 0 then Undefined
  else match v !! Z.to_nat i with
       | Some a => Returns a
       | None => Undefined
       end.

(** *** Member functions *)

Definition AddFrame (new_frame : TrackFrame) (t : Track) : Track := {|
  kMaxUncertainFramesStatic := kMaxUncertainFramesStatic t;
  kMaxUncertainFramesDynamic := kMaxUncertainFramesDynamic t;
  kTransErrorTreshold := kTransErrorTreshold t;
  id_ := id_ t;
  frames_ := frames_ t ++ [new_frame];
  reconstruction_ := reconstruction_ t;
  needs_cleanup_ := needs_cleanup_ t;
  track_state_ := track_state_ t;
  last_known_motion_time_ := last_known_motion_time_ t;
  last_known_motion_ := last_known_motion_ t;
  fused_frames_ := fused_frames_ t;
|}.

Definition GetSize (t : Track) : Z := Z.of_nat (length (frames_ t)).

Definition GetLastFrame (t : Track) : outcome TrackFrame :=
  vector_back (frames_ t).

Definition GetStartTime (t : Track) : outcome Z :=
  f ← vector_front (frames_ t); mret (frame_idx f).

Definition GetEndTime (t : Track) : outcome Z :=
  f ← vector_back (frames_ t); mret (frame_idx f).

Definition GetFrames (t : Track) : list TrackFrame := frames_ t.

Definition GetFrame (i : Z) (t : Track) : outcome TrackFrame :=
  vector_at (frames_ t) i.

Definition GetId (t : Track) : Z := id_ t.

Definition GetClassName (t : Track) : outcome string :=
  _ ← assert ((0 <? GetSize t)
              || literal_as_bool "Need at least one frame to determine a track's class.")
             "frames_.size() > 0 || <message>";
  f ← GetLastFrame t;
  mret (InstanceView_ClassName (instance_view f)).

Definition HasReconstruction (t : Track) : bool :=
  match reconstruction_ t with Some _ => true | None => false end.

Definition GetReconstruction (t : Track) : option InfiniTamDriver :=
  reconstruction_ t.

Definition EligibleForReconstruction (t : Track) : bool := 6 <=? GetSize t.

Definition NeedsCleanup (t : Track) : bool := needs_cleanup_ t.

Definition SetNeedsCleanup (needs_cleanup : bool) (t : Track) : Track := {|
  kMaxUncertainFramesStatic := kMaxUncertainFramesStatic t;
  kMaxUncertainFramesDynamic := kMaxUncertainFramesDynamic t;
  kTransErrorTreshold := kTransErrorTreshold t;
  id_ := id_ t;
  frames_ := frames_ t;
  reconstruction_ := reconstruction_ t;
  needs_cleanup_ := needs_cleanup;
  track_state_ := track_state_ t;
  last_known_motion_time_ := last_known_motion_time_ t;
  last_known_motion_ := last_known_motion_ t;
  fused_frames_ := fused_frames_ t;
|}.

Definition GetState (t : Track) : TrackState := track_state_ t.

Definition GetStateLabel (t : Track) : string :=
  match track_state_ t with
  | kDynamic => "Dynamic"
  | kStatic => "Static"
  | kUncertain => "Uncertain"
  end.

(** The [for] loop of [GetFirstFusableFrameIndex].  [remaining] is the
    number of iterations left, that is [n - i] for the loop bound
    [n = static_cast<int>(frames_.size())]; when it reaches zero the test
    [i < n] fails and control falls through to [return -1]. *)
Fixpoint first_fusable_loop (frames : list TrackFrame) (remaining : nat) (i : Z)
    : outcome Z :=
  match remaining with
  | O => Returns (-1)
  | S remaining' =>
      f ← vector_at frames i;
      p ← deref (relative_pose f);
      if IsPresent p then Returns (Z.max 0 (i - 1))
      else first_fusable_loop frames remaining' (i + 1)
  end.

Definition GetFirstFusableFrameIndex (t : Track) : outcome Z :=
  match frames_ t with
  | [] => Returns (-1)
  | _ => first_fusable_loop (frames_ t) (Z.to_nat (to_int (GetSize t))) 0
  end.

(** [fused_frames_++]; overflow of a signed [int] is undefined. *)
Definition CountFusedFrame (t : Track) : outcome Track :=
  if fused_frames_ t <? INT_MAX then
    Returns {|
      kMaxUncertainFramesStatic := kMaxUncertainFramesStatic t;
      kMaxUncertainFramesDynamic := kMaxUncertainFramesDynamic t;
      kTransErrorTreshold := kTransErrorTreshold t;
      id_ := id_ t;
      frames_ := frames_ t;
      reconstruction_ := reconstruction_ t;
      needs_cleanup_ := needs_cleanup_ t;
      track_state_ := track_state_ t;
      last_known_motion_time_ := last_known_motion_time_ t;
      last_known_motion_ := last_known_motion_ t;
      fused_frames_ := fused_frames_ t + 1;
    |}
  else Undefined.

(** The line break that [endl] writes. *)
Definition endl : string := String (Ascii.ascii_of_nat 10) EmptyString.

(** What a member function does to the outside world: text written to
    [cout], and [Reap] called on a reconstruction volume. *)
Inductive Event : Type :=
| Cout (text : string)
| Reap (volume : InfiniTamDriver) (max_weight : Z).

(** [max(1, min(5, static_cast<int>(0.33 * fused_frames_)))] *)
Definition reap_weight (fused_frames : Z) : outcome Z :=
  x ← int_of_double (double_mul double_0_33 (double_of_int fused_frames));
  mret (Z.max 1 (Z.min 5 x)).

(** [ReapReconstruction] changes no member of the track itself; its
    effects are the line on [cout] and the [Reap] call on the volume.  The
    arrow on an empty [shared_ptr] is undefined behaviour. *)
Definition ReapReconstruction (t : Track) : outcome (list Event) :=
  reap_weight ← reap_weight (fused_frames_ t);
  let line := Cout ("Reaping track with max weight [" +:+ pretty reap_weight
                    +:+ "]." +:+ endl) in
  match reconstruction_ t with
  | Some volume => Returns [line; Reap volume reap_weight]
  | None => Undefined
  end.

(** ** Member functions defined outside the header *)

(** What the scene-flow provider and the egomotion yield for the newest
    frame: nothing, or a relative transform together with the magnitude of
    its residual translation (a [float]). *)
Definition MotionEstimate : Type := option (Matrix4d * spec_float).

(** Modelled from the spec: the bookkeeping of [Track::Update], whose body
    is in [Track.cpp] and not among the sources.  The spec (section 4.2)
    speaks of an uncertain-frame counter accumulated over consecutive
    updates without a relative pose; the header has no member for it, so
    the counter is carried next to the track. *)
Record UpdateState : Type := Build_UpdateState {
  us_track : Track;
  uncertain_frames : Z;
}.

Definition set_relative_pose (o : Option Matrix4d) (f : TrackFrame) : TrackFrame :=
  Build_TrackFrame (frame_idx f) (instance_view f) (camera_pose f) (Some o).

(** Modelled from the spec: the hysteresis of section 4.2, step 3.  A
    residual below the threshold is evidence for [kStatic] and one above it
    for [kDynamic]; a residual that compares neither way (equal, or NaN)
    is evidence for neither.  From [kUncertain] one frame of evidence
    decides.  From [kStatic] and [kDynamic] each update without a pose
    adds one to the counter and the track reverts to [kUncertain] once the
    counter exceeds the maximum of its state; an update with a pose resets
    the counter, moves [kStatic] to [kDynamic] when the residual is above
    the threshold and never moves [kDynamic] back to [kStatic]. *)
Definition next_state (t : Track) (counter : Z) (estimate : MotionEstimate)
    : TrackState * Z :=
  match track_state_ t, estimate with
  | kUncertain, None => (kUncertain, counter)
  | kUncertain, Some (_, residual) =>
      match float_compare residual (kTransErrorTreshold t) with
      | Some Lt => (kStatic, 0)
      | Some Gt => (kDynamic, 0)
      | _ => (kUncertain, counter)
      end
  | kStatic, None =>
      if kMaxUncertainFramesStatic t <? counter + 1 then (kUncertain, 0)
      else (kStatic, counter + 1)
  | kStatic, Some (_, residual) =>
      match float_compare residual (kTransErrorTreshold t) with
      | Some Gt => (kDynamic, 0)
      | _ => (kStatic, 0)
      end
  | kDynamic, None =>
      if kMaxUncertainFramesDynamic t <? counter + 1 then (kUncertain, 0)
      else (kDynamic, counter + 1)
  | kDynamic, Some _ => (kDynamic, 0)
  end.

(** Modelled from the spec: [Track::Update] (section 4.2).  The arguments
    [egomotion] and [ssf_provider] enter through the estimate they produce
    for the newest frame.  The relative pose, or its absence, is stored in
    the newest frame; a fresh estimate replaces the last known motion and
    its time; the state follows [next_state]. *)
Definition Update (estimate : MotionEstimate) (u : UpdateState) : UpdateState :=
  let t := us_track u in
  let '(state, counter) := next_state t (uncertain_frames u) estimate in
  let pose : Option Matrix4d := fst <$> estimate in
  let newest := Nat.pred (length (frames_ t)) in
  {| us_track := {|
       kMaxUncertainFramesStatic := kMaxUncertainFramesStatic t;
       kMaxUncertainFramesDynamic := kMaxUncertainFramesDynamic t;
       kTransErrorTreshold := kTransErrorTreshold t;
       id_ := id_ t;
       frames_ := alter (set_relative_pose pose) newest (frames_ t);
       reconstruction_ := reconstruction_ t;
       needs_cleanup_ := needs_cleanup_ t;
       track_state_ := state;
       last_known_motion_time_ :=
         match estimate, last (frames_ t) with
         | Some _, Some f => frame_idx f
         | _, _ => last_known_motion_time_ t
         end;
       last_known_motion_ :=
         match estimate with
         | Some (m, _) => Some m
         | None => last_known_motion_ t
         end;
       fused_frames_ := fused_frames_ t;
     |};
     uncertain_frames := counter |}.

(** One step of the driver for a track that was matched in the current
    frame: [AddFrame], then [Update]. *)
Definition ObserveFrame (u : UpdateState) (obs : TrackFrame * MotionEstimate)
    : UpdateState :=
  Update (snd obs)
    {| us_track := AddFrame (fst obs) (us_track u);
       uncertain_frames := uncertain_frames u |}.

Definition ObserveFrames (u : UpdateState) (obs : list (TrackFrame * MotionEstimate))
    : UpdateState :=
  foldl ObserveFrame u obs.



(** *** The weight that the spec's wording describes *)

(** Rounding of the quotient [a / b] to the nearest integer, halves away
    from zero, as [round] does; [0 < b]. *)
Definition round_div (a b : Z) : Z :=
  if 0 <=? a then (2 * a + b) / (2 * b) else - ((2 * (- a) + b) / (2 * b)).

Definition clamp (x lo hi : Z) : Z := Z.max lo (Z.min hi x).

(** [clamp(round(0.33 * fused_frames), 1, 5)], in exact arithmetic. *)
Definition reap_weight_rounded (fused_frames : Z) : Z :=
  clamp (round_div (33 * fused_frames) 100) 1 5.

(** [clamp(trunc(0.33 * fused_frames), 1, 5)], in exact arithmetic; the
    quotient [Z.quot] truncates toward zero. *)
Definition reap_weight_truncated (fused_frames : Z) : Z :=
  clamp (Z.quot (33 * fused_frames) 100) 1 5.

(** *** Tracks fed in frame order

    The tracks that arise from a fresh track by [AddFrame] calls in which
    no frame index is below the index of the frame added before it. *)
Inductive in_frame_order : Track -> Prop :=
| in_frame_order_fresh (id : Z) : in_frame_order (Track_ctor id)
| in_frame_order_add (t : Track) (f : TrackFrame) :
    in_frame_order t ->
    (forall e, GetEndTime t = Returns e -> e <= frame_idx f) ->
    in_frame_order (AddFrame f t).

End TrackModel.

(** ** Concrete collaborators

    Small stand-ins on which the model can be evaluated: integers under
    multiplication for the pose matrices, the class name itself for an
    instance view, and a number for each reconstruction volume. *)
Definition sample_collaborators : Collaborators := {|
  Matrix4f := unit;
  Matrix4d := Z;
  Matrix4d_Identity := 1;
  Matrix4d_mul := Z.mul;
  InstanceView := string;
  InstanceView_ClassName := fun name => name;
  InfiniTamDriver := nat;
|}.

Definition sample_frame (idx : Z) (pose : option (Option Z))
    : @TrackFrame sample_collaborators :=
  @Build_TrackFrame sample_collaborators idx "car" tt pose.

Definition sample_track (frames : list (@TrackFrame sample_collaborators))
    (volume : option nat) (fused : Z) : @Track sample_collaborators :=
  @Build_Track sample_collaborators
    3 2 float_0_20 0 frames volume false kUncertain (-1) None fused.

(** The literal [0.05f], the binary32 number nearest to 1/20. *)
Definition float_0_05 : spec_float := S754_finite false 13421773 (-28).

(** ** The destructor and sequences of calls *)
Section TrackCalls.

Context `{Collaborators}.

(** [~Track()]: the lines written to [stderr].  A track that still holds
    a reconstruction announces its deletion; [%d] prints the id in
    decimal. *)
Definition Track_dtor (t : Track) : list string :=
  match reconstruction_ t with
  | Some _ =>
      ["Deleting track [" +:+ pretty (id_ t)
         +:+ "] and its associated reconstruction!" +:+ endl]
  | None => []
  end.

(** [AddFrame] called for each frame of a list, in order. *)
Definition AddFrames (frames : list TrackFrame) (t : Track) : Track :=
  foldl (fun t' f => AddFrame f t') t frames.

(** [CountFusedFrame] called [k] times in a row. *)
Fixpoint CountFusedFrames (k : nat) (t : Track) : outcome Track :=
  match k with
  | O => Returns t
  | S k' => t' ← CountFusedFrame t; CountFusedFrames k' t'
  end.

(** The tracks that the member functions of the header produce from a
    constructed track without going through a reference handed out by
    [GetReconstruction], [GetFrame] or [GetLastFrame] and without writing
    the public threshold members: calls of [AddFrame], [SetNeedsCleanup]
    and [CountFusedFrame]. *)
Inductive header_reachable : Track -> Prop :=
| header_reachable_ctor (id : Z) : header_reachable (Track_ctor id)
| header_reachable_AddFrame (t : Track) (f : TrackFrame) :
    header_reachable t -> header_reachable (AddFrame f t)
| header_reachable_SetNeedsCleanup (t : Track) (b : bool) :
    header_reachable t -> header_reachable (SetNeedsCleanup b t)
| header_reachable_CountFusedFrame (t t' : Track) :
    header_reachable t -> CountFusedFrame t = Returns t' -> header_reachable t'.

End TrackCalls.

(** * Properties *)

(** ** Binary64 rounding

    Bounds on what [SpecFloat]'s rounding returns, enough to follow the
    truncated product [0.33 * n] over the whole [int] range. *)
Section Rounding.

Lemma digits2_pos_size (p : positive) : digits2_pos p = Pos.size p.
Proof. induction p as [p IH | p IH |]; simpl; congruence. Qed.

Lemma Zdigits2_bounds (p : positive) :
  2 ^ (Zdigits2 (Z.pos p) - 1) <= Z.pos p < 2 ^ Zdigits2 (Z.pos p).
Proof.
  simpl. rewrite digits2_pos_size. split.
  - pose proof (Pos.size_le p) as Hle.
    assert (Hz : Z.pos (2 ^ Pos.size p) <= Z.pos p~0) by exact Hle.
    rewrite Pos2Z.inj_pow in Hz.
    replace (Z.pos (Pos.size p)) with (Z.pos (Pos.size p) - 1 + 1) in Hz by lia.
    rewrite Z.pow_add_r, Z.pow_1_r in Hz by lia.
    change (Z.pos p~0) with (2 * Z.pos p) in Hz. lia.
  - pose proof (Pos.size_gt p) as Hgt.
    assert (Hz : Z.pos p < Z.pos (2 ^ Pos.size p)) by exact Hgt.
    now rewrite Pos2Z.inj_pow in Hz.
Qed.

Lemma Zdigits2_le (p : positive) (k : Z) :
  0 <= k -> Z.pos p < 2 ^ k -> Zdigits2 (Z.pos p) <= k.
Proof.
  intros Hk Hlt. destruct (Zdigits2_bounds p) as [Hlo _].
  destruct (Z_le_gt_dec (Zdigits2 (Z.pos p)) k) as [|Hgt]; [assumption|].
  assert (2 ^ k <= 2 ^ (Zdigits2 (Z.pos p) - 1)) by (apply Z.pow_le_mono_r; lia).
  lia.
Qed.

Lemma Zdigits2_gt (p : positive) (k : Z) :
  2 ^ k <= Z.pos p -> k < Zdigits2 (Z.pos p).
Proof.
  intros Hle. destruct (Zdigits2_bounds p) as [_ Hhi].
  destruct (Z_lt_le_dec k (Zdigits2 (Z.pos p))) as [|Hge]; [assumption|].
  assert (2 ^ Zdigits2 (Z.pos p) <= 2 ^ k) by (apply Z.pow_le_mono_r; [lia | exact Hge]).
  lia.
Qed.

Lemma shr_1_m (mrs : shr_record) :
  0 <= shr_m mrs -> shr_m (shr_1 mrs) = shr_m mrs / 2.
Proof.
  destruct mrs as [m r s]. simpl. intros Hm.
  destruct m as [| [p | p |] | p]; simpl; try lia; try reflexivity.
  - rewrite Pos2Z.inj_xI. apply Z.div_unique with (r := 1); lia.
  - rewrite Pos2Z.inj_xO. apply Z.div_unique with (r := 0); lia.
Qed.

Lemma iter_pos_shr_1_m (p : positive) :
  forall mrs, 0 <= shr_m mrs ->
    shr_m (SpecFloat.iter_pos shr_1 p mrs) = shr_m mrs / 2 ^ Z.pos p.
Proof.
  induction p as [p IH | p IH |]; intros mrs Hm; simpl SpecFloat.iter_pos.
  - assert (H1 : 0 <= shr_m (shr_1 mrs)) by (rewrite shr_1_m by lia; apply Z.div_pos; lia).
    assert (H2 : 0 <= shr_m (SpecFloat.iter_pos shr_1 p (shr_1 mrs)))
      by (rewrite IH by lia; apply Z.div_pos; lia).
    rewrite IH, IH, shr_1_m by lia.
    rewrite !Z.div_div by lia. f_equal.
    rewrite Pos2Z.inj_xI. rewrite <- !Z.pow_add_r by lia.
    replace (2 * Z.pos p + 1) with (1 + (Z.pos p + Z.pos p)) by lia.
    rewrite (Z.pow_add_r 2 1) by lia. lia.
  - assert (H2 : 0 <= shr_m (SpecFloat.iter_pos shr_1 p mrs))
      by (rewrite IH by lia; apply Z.div_pos; lia).
    rewrite IH, IH by lia. rewrite Z.div_div by lia. f_equal.
    rewrite Pos2Z.inj_xO, <- Z.pow_add_r by lia. f_equal. lia.
  - rewrite shr_1_m by lia. reflexivity.
Qed.

Lemma round_nearest_even_bounds (m : Z) (l : location) :
  m <= round_nearest_even m l <= m + 1.
Proof.
  destruct l as [| []]; simpl; try lia. destruct (Z.even m); lia.
Qed.

Lemma fexp_double (x : Z) :
  fexp double_prec double_emax x = Z.max (x - 53) (-1074).
Proof. reflexivity. Qed.

Lemma shr_m_of_loc (m : Z) (l : location) : shr_m (shr_record_of_loc m l) = m.
Proof. destruct l as [| []]; reflexivity. Qed.

Lemma shr_fexp_noshift (m e : Z) (l : location) :
  fexp double_prec double_emax (Zdigits2 m + e) - e <= 0 ->
  shr_fexp double_prec double_emax m e l = (shr_record_of_loc m l, e).
Proof.
  intros Hn. unfold shr_fexp, shr.
  destruct (fexp double_prec double_emax (Zdigits2 m + e) - e); try reflexivity; lia.
Qed.

Lemma shr_fexp_shift (m e : Z) (l : location) :
  0 <= m ->
  0 < fexp double_prec double_emax (Zdigits2 m + e) - e ->
  exists mrs,
    shr_fexp double_prec double_emax m e l
      = (mrs, fexp double_prec double_emax (Zdigits2 m + e))
    /\ shr_m mrs = m / 2 ^ (fexp double_prec double_emax (Zdigits2 m + e) - e).
Proof.
  intros Hm Hn. unfold shr_fexp, shr.
  destruct (fexp double_prec double_emax (Zdigits2 m + e) - e) as [| n | n] eqn:En;
    try lia.
  exists (SpecFloat.iter_pos shr_1 n (shr_record_of_loc m l)). split.
  - f_equal. lia.
  - rewrite iter_pos_shr_1_m; rewrite shr_m_of_loc; [reflexivity | assumption].
Qed.

(** A mantissa of at most 53 bits needs no rounding. *)
Lemma binary_round_aux_exact (s : bool) (K : positive) (e : Z) :
  Zdigits2 (Z.pos K) <= 53 ->
  -1074 <= e <= 971 ->
  binary_round_aux double_prec double_emax s (Z.pos K) e loc_Exact
    = S754_finite s K e.
Proof.
  intros Hd He. unfold binary_round_aux.
  assert (Hn : fexp double_prec double_emax (Zdigits2 (Z.pos K) + e) - e <= 0)
    by (rewrite fexp_double; lia).
  rewrite (shr_fexp_noshift _ _ _ Hn).
  cbn [shr_record_of_loc loc_of_shr_record shr_m round_nearest_even].
  rewrite (shr_fexp_noshift _ _ _ Hn).
  cbn [shr_record_of_loc shr_m].
  replace (e <=? double_emax - double_prec) with true; [reflexivity|].
  symmetry. apply Z.leb_le. unfold double_emax, double_prec. lia.
Qed.

(** A longer mantissa [K] is cut down to 53 bits: the result is
    [m' * 2^(e + q)] where [m'] is [K / 2^q] or its successor. *)
Lemma binary_round_aux_inexact (s : bool) (K : positive) (e : Z) :
  53 < Zdigits2 (Z.pos K) ->
  -1074 <= e ->
  Zdigits2 (Z.pos K) + e <= 1023 ->
  exists (m' : positive) (q : Z),
    binary_round_aux double_prec double_emax s (Z.pos K) e loc_Exact
      = S754_finite s m' (e + q)
    /\ Zdigits2 (Z.pos K) - 53 <= q <= Zdigits2 (Z.pos K) - 52
    /\ Z.pos K / 2 ^ q <= Z.pos m' <= Z.pos K / 2 ^ q + 1.
Proof.
  intros Hd He Hmax.
  pose proof (Zdigits2_bounds K) as [Klo Khi].
  set (d := Zdigits2 (Z.pos K)) in *.
  assert (Hn : fexp double_prec double_emax (d + e) - e = d - 53)
    by (rewrite fexp_double; lia).
  unfold binary_round_aux.
  destruct (shr_fexp_shift (Z.pos K) e loc_Exact) as (mrs & Hshr & Hm0);
    [lia | fold d; lia |].
  fold d in Hshr, Hm0. rewrite Hn in Hm0. rewrite Hshr.
  set (m0 := shr_m mrs) in *.
  (* the shifted mantissa has exactly 53 bits *)
  assert (Hm0lo : 2 ^ 52 <= m0).
  { rewrite Hm0. apply Z.div_le_lower_bound; [lia|].
    replace (2 ^ (d - 53) * 2 ^ 52) with (2 ^ (d - 1)); [assumption|].
    rewrite <- Z.pow_add_r by lia. f_equal. lia. }
  assert (Hm0hi : m0 < 2 ^ 53).
  { rewrite Hm0. apply Z.div_lt_upper_bound; [lia|].
    replace (2 ^ (d - 53) * 2 ^ 53) with (2 ^ d); [assumption|].
    rewrite <- Z.pow_add_r by lia. f_equal. lia. }
  pose proof (round_nearest_even_bounds m0 (loc_of_shr_record mrs)) as Hrne.
  set (m1 := round_nearest_even m0 (loc_of_shr_record mrs)) in *.
  destruct m1 as [| p1 | p1] eqn:Em1; try lia.
  assert (Hd1 : 53 <= Zdigits2 (Z.pos p1) <= 54).
  { split.
    - pose proof (Zdigits2_gt p1 52). lia.
    - apply Zdigits2_le; lia. }
  set (e1 := fexp double_prec double_emax (d + e)) in *.
  assert (He1 : e1 = e + (d - 53)) by lia.
  assert (Hn2 : fexp double_prec double_emax (Zdigits2 (Z.pos p1) + e1) - e1
                = Zdigits2 (Z.pos p1) - 53)
    by (rewrite fexp_double; lia).
  destruct (Z.eq_dec (Zdigits2 (Z.pos p1)) 53) as [E53 | N53].
  - (* the rounded mantissa still has 53 bits *)
    rewrite shr_fexp_noshift by lia.
    cbn [shr_record_of_loc shr_m].
    replace (e1 <=? double_emax - double_prec) with true
      by (symmetry; apply Z.leb_le; unfold double_emax, double_prec; lia).
    exists p1, (d - 53). repeat split; try lia.
    f_equal. lia.
  - (* rounding carried into a 54th bit: one more shift *)
    destruct (shr_fexp_shift (Z.pos p1) e1 loc_Exact) as (mrs2 & Hshr2 & Hm2);
      [lia | lia |].
    rewrite Hn2 in Hm2. replace (Zdigits2 (Z.pos p1) - 53) with 1 in Hm2 by lia.
    rewrite Hshr2.
    assert (Hm2lo : m0 / 2 <= shr_m mrs2) by (rewrite Hm2; apply Z.div_le_mono; lia).
    assert (Hm2hi : shr_m mrs2 <= m0 / 2 + 1).
    { rewrite Hm2. change (2 ^ 1) with 2.
      transitivity ((m0 + 1 * 2) / 2); [apply Z.div_le_mono; lia|].
      rewrite Z.div_add by lia. lia. }
    assert (Hhalf : 2 ^ 51 <= m0 / 2)
      by (apply Z.div_le_lower_bound; [lia|]; change (2 * 2 ^ 51) with (2 ^ 52); lia).
    assert (Hq : Z.pos K / 2 ^ (d - 52) = m0 / 2).
    { rewrite Hm0. rewrite Z.div_div by lia. f_equal.
      change 2 with (2 ^ 1) at 3. rewrite <- Z.pow_add_r by lia. f_equal. lia. }
    destruct (shr_m mrs2) as [| p2 | p2] eqn:Ep2; try lia.
    replace (fexp double_prec double_emax (Zdigits2 (Z.pos p1) + e1)
               <=? double_emax - double_prec) with true
      by (symmetry; apply Z.leb_le; rewrite fexp_double;
          unfold double_emax, double_prec; lia).
    exists p2, (d - 52). repeat split; try lia.
    f_equal. rewrite fexp_double. lia.
Qed.

(** The literals are the correctly rounded quotients, and [0.33] is
    within half a unit in the last place of 33/100. *)
Lemma float_literals_nearest :
  double_0_33 = SFdiv double_prec double_emax (double_of_int 33) (double_of_int 100)
  /\ Z.abs (33 * 2 ^ 54 - 100 * double_0_33_mantissa) <= 50
  /\ float_0_20 = SFdiv float_prec float_emax
                     (binary_normalize float_prec float_emax 20 0 false)
                     (binary_normalize float_prec float_emax 100 0 false)
  /\ float_0_05 = SFdiv float_prec float_emax
                     (binary_normalize float_prec float_emax 5 0 false)
                     (binary_normalize float_prec float_emax 100 0 false).
Proof. repeat split. vm_compute. discriminate. Qed.

Lemma pos_iter_xO (m d : positive) :
  Z.pos (Pos.iter xO m d) = Z.pos m * 2 ^ Z.pos d.
Proof.
  induction d as [| d IH] using Pos.peano_ind.
  - simpl. lia.
  - rewrite Pos.iter_succ, Pos2Z.inj_xO, IH, Pos2Z.inj_succ, Z.pow_succ_r by lia. lia.
Qed.

(** The [int] to [double] conversion is exact: the result is
    [m * 2^e], equal to [|n|], with the sign of [n]. *)
Lemma double_of_int_finite (n : Z) :
  n <> 0 -> Z.abs n < 2 ^ 53 ->
  exists (m : positive) (e : Z),
    double_of_int n = S754_finite (n <? 0) m e
    /\ -52 <= e <= 0
    /\ Z.pos m = Z.abs n * 2 ^ (- e).
Proof.
  intros Hn Hlt.
  assert (Hgen : forall (s : bool) (p : positive), Z.pos p < 2 ^ 53 ->
            exists (m : positive) (e : Z),
              binary_round double_prec double_emax s p 0 = S754_finite s m e
              /\ -52 <= e <= 0 /\ Z.pos m = Z.pos p * 2 ^ (- e)).
  { intros s p Hp. unfold binary_round, shl_align.
    pose proof (Zdigits2_bounds p) as [_ Hhi].
    pose proof (Zdigits2_le p 53 ltac:(lia) Hp) as Hd.
    change (Z.pos (digits2_pos p)) with (Zdigits2 (Z.pos p)).
    set (d := Zdigits2 (Z.pos p)) in *.
    assert (Hd0 : 1 <= d) by (subst d; simpl; lia).
    rewrite fexp_double.
    replace (Z.max (d + 0 - 53) (-1074) - 0) with (d - 53) by lia.
    replace (Z.max (d + 0 - 53) (-1074)) with (d - 53) by lia.
    destruct (d - 53) as [| k | k] eqn:Ek; try lia.
    - exists p, 0. split; [|split; [lia | simpl; lia]].
      apply binary_round_aux_exact; lia.
    - exists (Pos.iter xO p k), (Z.neg k).
      assert (Hk : Z.pos k = 53 - d) by lia.
      assert (Hmz : Z.pos (Pos.iter xO p k) < 2 ^ 53).
      { rewrite pos_iter_xO, Hk.
        replace (2 ^ 53) with (2 ^ d * 2 ^ (53 - d))
          by (rewrite <- Z.pow_add_r by lia; f_equal; lia).
        apply Z.mul_lt_mono_pos_r; lia. }
      split; [|split; [lia | rewrite pos_iter_xO; reflexivity]].
      apply binary_round_aux_exact; [apply Zdigits2_le; lia | lia]. }
  destruct n as [| p | p]; [congruence | |]; unfold double_of_int, binary_normalize.
  - apply (Hgen false p). assumption.
  - apply (Hgen true p). assumption.
Qed.

(** The product [0.33 * n] in binary64, cut to an integer magnitude, is
    the exact quotient [mantissa * |n| / 2^54] or its successor. *)
Lemma product_0_33_bounds (n : Z) :
  n <> 0 -> Z.abs n <= 2 ^ 31 ->
  exists (m' : positive) (e' : Z),
    double_mul double_0_33 (double_of_int n) = S754_finite (n <? 0) m' e'
    /\ double_0_33_mantissa * Z.abs n / 2 ^ 54 <= Z.shiftl (Z.pos m') e'
         <= double_0_33_mantissa * Z.abs n / 2 ^ 54 + 1.
Proof.
  intros Hn Habs.
  destruct (double_of_int_finite n Hn) as (m & e & Hof & He & Hm); [lia|].
  rewrite Hof. unfold double_mul, double_0_33, SFmul.
  rewrite Bool.xorb_false_l.
  set (K := (5944751508129055 * m)%positive).
  assert (HK : Z.pos K = double_0_33_mantissa * Z.abs n * 2 ^ (- e))
    by (subst K; rewrite Pos2Z.inj_mul, Hm; unfold double_0_33_mantissa; lia).
  assert (Hpow : 0 < 2 ^ (- e)) by (apply Z.pow_pos_nonneg; lia).
  assert (Hcut : Z.pos K / 2 ^ (54 - e) = double_0_33_mantissa * Z.abs n / 2 ^ 54).
  { rewrite HK. replace (2 ^ (54 - e)) with (2 ^ 54 * 2 ^ (- e))
      by (rewrite <- Z.pow_add_r by lia; f_equal; lia).
    apply Z.div_mul_cancel_r; lia. }
  assert (HKhi : Z.pos K < 2 ^ (85 - e)).
  { rewrite HK. replace (2 ^ (85 - e)) with (2 ^ 85 * 2 ^ (- e))
      by (rewrite <- Z.pow_add_r by lia; f_equal; lia).
    apply Z.mul_lt_mono_pos_r; [assumption|].
    unfold double_0_33_mantissa. lia. }
  pose proof (Zdigits2_le K (85 - e) ltac:(lia) HKhi) as Hd.
  destruct (Z_le_gt_dec (Zdigits2 (Z.pos K)) 53) as [Hsmall | Hbig].
  - exists K, (-54 + e). split.
    + apply binary_round_aux_exact; lia.
    + rewrite Z.shiftl_div_pow2 by lia.
      replace (- (-54 + e)) with (54 - e) by lia. rewrite Hcut. lia.
  - destruct (binary_round_aux_inexact (n <? 0) K (-54 + e)) as (m' & q & Hr & Hq & Hb);
      [lia | lia | lia |].
    exists m', (-54 + e + q). split; [assumption|].
    rewrite Z.shiftl_div_pow2 by lia.
    assert (Hq0 : 0 <= q) by lia.
    assert (Hs0 : 0 <= - (-54 + e + q)) by lia.
    assert (Hpq : 0 < 2 ^ q) by (apply Z.pow_pos_nonneg; lia).
    assert (Hps : 0 < 2 ^ (- (-54 + e + q))) by (apply Z.pow_pos_nonneg; lia).
    assert (Hsplit : Z.pos K / 2 ^ q / 2 ^ (- (-54 + e + q)) = Z.pos K / 2 ^ (54 - e)).
    { rewrite Z.div_div by lia. f_equal.
      rewrite <- Z.pow_add_r by lia. f_equal. lia. }
    rewrite <- Hcut, <- Hsplit. split.
    + apply Z.div_le_mono; lia.
    + transitivity ((Z.pos K / 2 ^ q + 1 * 2 ^ (- (-54 + e + q))) / 2 ^ (- (-54 + e + q))).
      * apply Z.div_le_mono; lia.
      * rewrite Z.div_add by lia. lia.
Qed.

(** Over the whole [int] range the weight computed in binary64 is the
    exact truncated quotient, clamped. *)
Lemma reap_weight_truncates (n : Z) :
  int_range n -> reap_weight n = Returns (reap_weight_truncated n).
Proof.
  unfold int_range, INT_MIN, INT_MAX. intros Hr.
  destruct (Z.eq_dec n 0) as [-> | Hn]; [reflexivity|].
  destruct (Z_lt_le_dec n 16) as [Hlt | Hge].
  - destruct (Z_lt_le_dec 0 n) as [Hpos | Hneg].
    + (* 1 .. 15: evaluate *)
      assert (Hcases : n = 1 \/ n = 2 \/ n = 3 \/ n = 4 \/ n = 5 \/ n = 6 \/ n = 7
                       \/ n = 8 \/ n = 9 \/ n = 10 \/ n = 11 \/ n = 12 \/ n = 13
                       \/ n = 14 \/ n = 15) by lia.
      repeat (destruct Hcases as [-> | Hcases]; [vm_compute; reflexivity|]).
      subst n. vm_compute. reflexivity.
    + (* negative: the truncated product is not positive *)
      destruct (product_0_33_bounds n Hn) as (m' & e' & Hmul & Hlo & Hhi); [lia|].
      unfold reap_weight. rewrite Hmul.
      replace (n <? 0) with true by (symmetry; apply Z.ltb_lt; lia).
      assert (Hq : double_0_33_mantissa * Z.abs n / 2 ^ 54 <= 2 ^ 30).
      { apply Z.div_le_upper_bound; [lia|]. unfold double_0_33_mantissa. lia. }
      assert (Ha : 0 <= double_0_33_mantissa * Z.abs n / 2 ^ 54)
        by (apply Z.div_pos; unfold double_0_33_mantissa; lia).
      unfold int_of_double.
      replace (int_rangeb (- Z.shiftl (Z.pos m') e')) with true
        by (symmetry; unfold int_rangeb, INT_MIN, INT_MAX;
            apply andb_true_intro; split; apply Z.leb_le; lia).
      cbn [mbind outcome_bind mret outcome_ret]. f_equal.
      unfold reap_weight_truncated, clamp.
      assert (Hquot : Z.quot (33 * n) 100 <= 0).
      { replace (33 * n) with (- (33 * - n)) by lia. rewrite Z.quot_opp_l by lia.
        pose proof (Z.quot_pos (33 * - n) 100). lia. }
      lia.
  - (* 16 and above: the truncated product is at least 5 *)
    destruct (product_0_33_bounds n Hn) as (m' & e' & Hmul & Hlo & Hhi); [lia|].
    unfold reap_weight. rewrite Hmul.
    replace (n <? 0) with false by (symmetry; apply Z.ltb_ge; lia).
    rewrite Z.abs_eq in Hlo, Hhi by lia.
    assert (Hq : double_0_33_mantissa * n / 2 ^ 54 <= 2 ^ 30).
    { apply Z.div_le_upper_bound; [lia|]. unfold double_0_33_mantissa. lia. }
    assert (Ha : 5 <= double_0_33_mantissa * n / 2 ^ 54).
    { apply Z.div_le_lower_bound; [lia|]. unfold double_0_33_mantissa. lia. }
    unfold int_of_double.
    replace (int_rangeb (Z.shiftl (Z.pos m') e')) with true
      by (symmetry; unfold int_rangeb, INT_MIN, INT_MAX;
          apply andb_true_intro; split; apply Z.leb_le; lia).
    cbn [mbind outcome_bind mret outcome_ret]. f_equal.
    unfold reap_weight_truncated, clamp.
    assert (Hquot : 5 <= Z.quot (33 * n) 100).
    { rewrite Z.quot_div_nonneg by lia. apply Z.div_le_lower_bound; lia. }
    lia.
Qed.

End Rounding.

(** ** The track *)
Section TrackProperties.

Context `{Collaborators}.

Lemma outcome_bind_returns {A B : Type} (a : A) (k : A -> outcome B) :
  Returns a ≫= k = k a.
Proof. reflexivity. Qed.

Lemma vector_back_snoc {A : Type} (v : list A) (a : A) :
  vector_back (v ++ [a]) = Returns a.
Proof. unfold vector_back. now rewrite last_snoc. Qed.

Lemma vector_at_lookup {A : Type} (v : list A) (i : nat) (a : A) :
  v !! i = Some a -> vector_at v (Z.of_nat i) = Returns a.
Proof.
  intros Hl. unfold vector_at.
  replace (Z.of_nat i <? 0) with false by (symmetry; apply Z.ltb_ge; lia).
  now rewrite Nat2Z.id, Hl.
Qed.

(** C9: a track made by the constructor, whatever its id, is in state
    [kUncertain], has size zero, owns no reconstruction and needs no
    cleanup. *)
Theorem Track_ctor_initial (id : Z) :
  GetState (Track_ctor id) = kUncertain
  /\ GetSize (Track_ctor id) = 0
  /\ HasReconstruction (Track_ctor id) = false
  /\ NeedsCleanup (Track_ctor id) = false.
Proof. repeat split. Qed.

(** C10: [AddFrame f] makes the size one larger, makes [f] the last frame
    and its index the end time, and leaves alone the frames stored before,
    the state, the reconstruction handle, the cleanup flag and the count of
    fused frames (as well as every other member). *)
Theorem AddFrame_effect (t : Track) (f : TrackFrame) :
  GetSize (AddFrame f t) = GetSize t + 1
  /\ GetLastFrame (AddFrame f t) = Returns f
  /\ GetEndTime (AddFrame f t) = Returns (frame_idx f)
  /\ (forall i, 0 <= i < GetSize t -> GetFrame i (AddFrame f t) = GetFrame i t)
  /\ take (length (GetFrames t)) (GetFrames (AddFrame f t)) = GetFrames t
  /\ GetState (AddFrame f t) = GetState t
  /\ GetReconstruction (AddFrame f t) = GetReconstruction t
  /\ NeedsCleanup (AddFrame f t) = NeedsCleanup t
  /\ fused_frames_ (AddFrame f t) = fused_frames_ t
  /\ GetId (AddFrame f t) = GetId t
  /\ last_known_motion_time_ (AddFrame f t) = last_known_motion_time_ t
  /\ last_known_motion_ (AddFrame f t) = last_known_motion_ t
  /\ kMaxUncertainFramesStatic (AddFrame f t) = kMaxUncertainFramesStatic t
  /\ kMaxUncertainFramesDynamic (AddFrame f t) = kMaxUncertainFramesDynamic t
  /\ kTransErrorTreshold (AddFrame f t) = kTransErrorTreshold t.
Proof.
  unfold GetSize, GetLastFrame, GetEndTime, GetFrame, GetFrames. simpl.
  repeat split.
  - rewrite length_app. simpl. lia.
  - apply vector_back_snoc.
  - now rewrite vector_back_snoc.
  - intros i Hi. unfold vector_at.
    destruct (i <? 0); [reflexivity|].
    rewrite lookup_app_l by lia. reflexivity.
  - now rewrite take_app_length.
Qed.


(** C3: on a track without frames the assertion of [GetClassName] lets
    the call through, because its condition is a disjunction with a string
    literal; the call then takes [back()] of an empty vector.  On no track
    at all does the call end in an assertion failure. *)
Theorem GetClassName_empty_track (id : Z) (t : Track) :
  GetClassName (Track_ctor id) = Undefined
  /\ (frames_ t = [] -> GetClassName t = Undefined)
  /\ (GetClassName t = Undefined \/ exists name, GetClassName t = Returns name).
Proof.
  split; [reflexivity|].
  unfold GetClassName, GetLastFrame, vector_back.
  rewrite Bool.orb_true_r. cbn [assert]. rewrite outcome_bind_returns.
  split.
  - intros ->. reflexivity.
  - destruct (last (frames_ t)) as [f |]; [right | left; reflexivity].
    eexists. reflexivity.
Qed.

(** *** Reaping *)

Lemma reap_weight_truncated_range (n : Z) : 1 <= reap_weight_truncated n <= 5.
Proof. unfold reap_weight_truncated, clamp. lia. Qed.

(** C1, as amended: on a track that owns a volume, [ReapReconstruction]
    calls [Reap] on that volume with the weight
    [clamp(trunc(0.33 * fused_frames), 1, 5)], the cast to [int] cutting
    the fraction off; the weight lies in [1, 5], and it is 1 for 0 fused
    frames, 1 for 3 and 4 for 15. *)
Theorem ReapReconstruction_weight (t : Track) (volume : InfiniTamDriver) :
  reconstruction_ t = Some volume ->
  int_range (fused_frames_ t) ->
  exists w : Z,
    ReapReconstruction t
      = Returns [Cout ("Reaping track with max weight [" +:+ pretty w +:+ "]." +:+ endl);
                 Reap volume w]
    /\ w = reap_weight_truncated (fused_frames_ t)
    /\ 1 <= w <= 5
    /\ (fused_frames_ t = 0 -> w = 1)
    /\ (fused_frames_ t = 3 -> w = 1)
    /\ (fused_frames_ t = 15 -> w = 4).
Proof.
  intros Hvol Hrange. exists (reap_weight_truncated (fused_frames_ t)).
  split; [|split; [reflexivity | split; [apply reap_weight_truncated_range|]]].
  - unfold ReapReconstruction. rewrite (reap_weight_truncates _ Hrange).
    rewrite outcome_bind_returns, Hvol. reflexivity.
  - repeat split; intros ->; reflexivity.
Qed.

(** C8, as amended: [ReapReconstruction] checks nothing.  With a volume
    owned ([HasReconstruction] true) the handle is dereferenced safely and
    the call completes with a [Reap] on that volume; with no volume the
    null handle is dereferenced all the same, which is undefined behaviour
    and not an assertion failure. *)
Theorem ReapReconstruction_precondition (t : Track) :
  int_range (fused_frames_ t) ->
  (HasReconstruction t = true ->
     exists (volume : InfiniTamDriver) (line : string) (w : Z),
       GetReconstruction t = Some volume
       /\ ReapReconstruction t = Returns [Cout line; Reap volume w])
  /\ (HasReconstruction t = false -> ReapReconstruction t = Undefined).
Proof.
  intros Hrange. unfold HasReconstruction, GetReconstruction, ReapReconstruction.
  rewrite (reap_weight_truncates _ Hrange), outcome_bind_returns.
  destruct (reconstruction_ t) as [volume |]; split; intros Hhas; try discriminate.
  - eexists volume, _, _. split; reflexivity.
  - reflexivity.
Qed.

(** *** The first fusable frame *)

Lemma to_int_small (z : Z) : 0 <= z <= INT_MAX -> to_int z = z.
Proof.
  unfold INT_MAX, to_int. intros Hz. rewrite Z.mod_small by lia. lia.
Qed.

(** The loop started at position [k] runs off the end when every frame it
    visits has an absent relative pose. *)
Lemma first_fusable_loop_none (frames : list TrackFrame) (remaining : nat) :
  forall k : nat,
    (forall j, (k <= j < k + remaining)%nat ->
       exists f, frames !! j = Some f /\ relative_pose f = Some None) ->
    first_fusable_loop frames remaining (Z.of_nat k) = Returns (-1).
Proof.
  induction remaining as [| r IH]; intros k Hall; [reflexivity|].
  destruct (Hall k ltac:(lia)) as (f & Hf & Hp).
  cbn [first_fusable_loop].
  rewrite (vector_at_lookup _ _ _ Hf), outcome_bind_returns, Hp.
  cbn [deref]. rewrite outcome_bind_returns. cbn [IsPresent].
  replace (Z.of_nat k + 1) with (Z.of_nat (S k)) by lia.
  apply IH. intros j Hj. apply Hall. lia.
Qed.

(** The loop started at position [k] stops at the first position [i] whose
    frame has a present relative pose. *)
Lemma first_fusable_loop_found (frames : list TrackFrame) (i : nat)
    (f : TrackFrame) (pose : Matrix4d) (remaining : nat) :
  frames !! i = Some f ->
  relative_pose f = Some (Some pose) ->
  forall k : nat,
    (k <= i < k + remaining)%nat ->
    (forall j, (k <= j < i)%nat ->
       exists g, frames !! j = Some g /\ relative_pose g = Some None) ->
    first_fusable_loop frames remaining (Z.of_nat k)
      = Returns (Z.max 0 (Z.of_nat i - 1)).
Proof.
  intros Hf Hp. induction remaining as [| r IH]; intros k Hk Hall; [lia|].
  cbn [first_fusable_loop].
  destruct (Nat.eq_dec k i) as [-> | Hne].
  - rewrite (vector_at_lookup _ _ _ Hf), outcome_bind_returns, Hp.
    reflexivity.
  - destruct (Hall k ltac:(lia)) as (g & Hg & Hgp).
    rewrite (vector_at_lookup _ _ _ Hg), outcome_bind_returns, Hgp.
    cbn [deref]. rewrite outcome_bind_returns. cbn [IsPresent].
    replace (Z.of_nat k + 1) with (Z.of_nat (S k)) by lia.
    apply IH; [lia|]. intros j Hj. apply Hall. lia.
Qed.

(** C2, as amended: [GetFirstFusableFrameIndex] returns -1 on a track
    without frames.  On the frames it scans, the [relative_pose] pointer
    must have been assigned to a live [Option] object, which the
    [TrackFrame] constructor does not do; under that condition it returns
    -1 when every frame's relative pose is absent, and otherwise
    [max(0, i - 1)] for the first position [i] whose relative pose is
    present, the frames before it holding absent poses; with the first
    present pose at position 2 the result is 1.  The number of frames is
    taken to fit an [int], as the loop bound is the size cast to [int]. *)
Theorem GetFirstFusableFrameIndex_spec (t : Track) :
  GetSize t <= INT_MAX ->
  (frames_ t = [] -> GetFirstFusableFrameIndex t = Returns (-1))
  /\ (Forall (fun f => relative_pose f = Some None) (frames_ t) ->
      GetFirstFusableFrameIndex t = Returns (-1))
  /\ (forall pre f post pose,
        frames_ t = pre ++ f :: post ->
        Forall (fun g => relative_pose g = Some None) pre ->
        relative_pose f = Some (Some pose) ->
        GetFirstFusableFrameIndex t
          = Returns (Z.max 0 (Z.of_nat (length pre) - 1)))
  /\ (forall f0 f1 f2 post pose,
        frames_ t = f0 :: f1 :: f2 :: post ->
        relative_pose f0 = Some None ->
        relative_pose f1 = Some None ->
        relative_pose f2 = Some (Some pose) ->
        GetFirstFusableFrameIndex t = Returns 1).
Proof.
  intros Hsize.
  assert (Hfound : forall pre f post pose,
            frames_ t = pre ++ f :: post ->
            Forall (fun g => relative_pose g = Some None) pre ->
            relative_pose f = Some (Some pose) ->
            GetFirstFusableFrameIndex t
              = Returns (Z.max 0 (Z.of_nat (length pre) - 1))).
  { intros pre f post pose Hfr Hpre Hp. unfold GetFirstFusableFrameIndex.
    rewrite to_int_small by (unfold GetSize in *; lia).
    unfold GetSize. rewrite Nat2Z.id.
    assert (Hloop : first_fusable_loop (frames_ t) (length (frames_ t)) (Z.of_nat 0)
                    = Returns (Z.max 0 (Z.of_nat (length pre) - 1))).
    { apply first_fusable_loop_found with (f := f) (pose := pose).
      - rewrite Hfr. now apply list_lookup_middle.
      - assumption.
      - rewrite Hfr, length_app. simpl. lia.
      - intros j Hj. rewrite Hfr, lookup_app_l by lia.
        destruct (lookup_lt_is_Some_2 pre j ltac:(lia)) as [g Hg].
        exists g. split; [assumption|].
        rewrite Forall_lookup in Hpre. exact (Hpre j g Hg). }
    destruct (frames_ t) eqn:Efr; [destruct pre; discriminate | exact Hloop]. }
  split; [|split; [|split]].
  - intros Hempty. unfold GetFirstFusableFrameIndex. now rewrite Hempty.
  - intros Hall. unfold GetFirstFusableFrameIndex.
    rewrite to_int_small by (unfold GetSize in *; lia).
    unfold GetSize. rewrite Nat2Z.id.
    assert (Hloop : first_fusable_loop (frames_ t) (length (frames_ t)) (Z.of_nat 0)
                    = Returns (-1)).
    { apply first_fusable_loop_none. intros j Hj.
      destruct (lookup_lt_is_Some_2 (frames_ t) j ltac:(lia)) as [g Hg].
      exists g. split; [assumption|].
      rewrite Forall_lookup in Hall. exact (Hall j g Hg). }
    destruct (frames_ t); [reflexivity | exact Hloop].
  - exact Hfound.
  - intros f0 f1 f2 post pose Hfr H0 H1 H2.
    apply (Hfound [f0; f1] f2 post pose); [exact Hfr | | exact H2].
    repeat constructor; assumption.
Qed.

(** *** Frame order *)

Lemma GetEndTime_last (t : Track) (f : TrackFrame) :
  last (frames_ t) = Some f -> GetEndTime t = Returns (frame_idx f).
Proof. intros Hl. unfold GetEndTime, vector_back. now rewrite Hl. Qed.

(** In a track fed in frame order, an earlier position never holds a later
    frame index. *)
Lemma in_frame_order_sorted (t : Track) :
  in_frame_order t ->
  forall (i j : nat) (fi fj : TrackFrame),
    (i <= j)%nat ->
    frames_ t !! i = Some fi -> frames_ t !! j = Some fj ->
    frame_idx fi <= frame_idx fj.
Proof.
  induction 1 as [id | t f Hord IH Hend]; intros i j fi fj Hij Hi Hj.
  - simpl in Hi. discriminate.
  - simpl in Hi, Hj.
    pose proof (lookup_lt_Some _ _ _ Hi) as Hli.
    pose proof (lookup_lt_Some _ _ _ Hj) as Hlj.
    rewrite length_app in Hli, Hlj. simpl in Hli, Hlj.
    destruct (Nat.eq_dec j (length (frames_ t))) as [-> | Hjn].
    + rewrite list_lookup_middle in Hj by reflexivity. injection Hj as <-.
      destruct (Nat.eq_dec i (length (frames_ t))) as [-> | Hin].
      * rewrite list_lookup_middle in Hi by reflexivity. injection Hi as <-. lia.
      * rewrite lookup_app_l in Hi by lia.
        destruct (last (frames_ t)) as [fe |] eqn:Hlast.
        -- pose proof (Hend _ (GetEndTime_last _ _ Hlast)) as Hle.
           rewrite last_lookup in Hlast.
           pose proof (IH i (Nat.pred (length (frames_ t))) fi fe ltac:(lia) Hi Hlast).
           lia.
        -- apply last_None in Hlast. rewrite Hlast in Hi. discriminate.
    + rewrite lookup_app_l in Hi, Hj by lia. exact (IH i j fi fj Hij Hi Hj).
Qed.

(** C4, as amended: [AddFrame] stores whatever it is given, so the order
    is the caller's to keep.  When the frames are added in non-decreasing
    index order, a non-empty track has a start time no greater than any
    stored index, an end time no smaller, and its stored indices are
    non-decreasing. *)
Theorem AddFrame_in_order_invariant (t : Track) :
  in_frame_order t ->
  GetSize t <> 0 ->
  exists (s e : Z),
    GetStartTime t = Returns s
    /\ GetEndTime t = Returns e
    /\ Forall (fun f => s <= frame_idx f <= e) (GetFrames t)
    /\ (forall (i j : nat) (fi fj : TrackFrame),
          (i <= j)%nat ->
          GetFrames t !! i = Some fi -> GetFrames t !! j = Some fj ->
          frame_idx fi <= frame_idx fj).
Proof.
  intros Hord Hsize. pose proof (in_frame_order_sorted t Hord) as Hsorted.
  unfold GetSize, GetStartTime, GetEndTime, GetFrames, vector_back in *.
  destruct (frames_ t) as [| f0 rest] eqn:Efr; [simpl in Hsize; lia|].
  destruct (last (f0 :: rest)) as [fe |] eqn:Hlast;
    [| apply last_None in Hlast; discriminate].
  exists (frame_idx f0), (frame_idx fe). repeat split; [| exact Hsorted].
  rewrite Forall_lookup. intros i f Hf.
  rewrite last_lookup in Hlast.
  pose proof (lookup_lt_Some _ _ _ Hf) as Hlt. split.
  - apply (Hsorted 0%nat i f0 f); [lia | reflexivity | exact Hf].
  - apply (Hsorted i (Nat.pred (length (f0 :: rest))) f fe);
      [lia | exact Hf | exact Hlast].
Qed.

(** *** The state machine of [Update] *)

Lemma ObserveFrame_unavailable_static (u : UpdateState) (f : TrackFrame) :
  track_state_ (us_track u) = kStatic ->
  let u' := ObserveFrame u (f, None) in
  kMaxUncertainFramesStatic (us_track u') = kMaxUncertainFramesStatic (us_track u)
  /\ (uncertain_frames u + 1 <= kMaxUncertainFramesStatic (us_track u) ->
      track_state_ (us_track u') = kStatic
      /\ uncertain_frames u' = uncertain_frames u + 1)
  /\ (kMaxUncertainFramesStatic (us_track u) < uncertain_frames u + 1 ->
      track_state_ (us_track u') = kUncertain).
Proof.
  intros Hst. unfold ObserveFrame, Update, next_state. cbn [fst snd us_track uncertain_frames
    AddFrame track_state_ kMaxUncertainFramesStatic]. rewrite Hst.
  destruct (kMaxUncertainFramesStatic (us_track u) <? uncertain_frames u + 1) eqn:Hcmp;
    cbn [us_track uncertain_frames track_state_ kMaxUncertainFramesStatic].
  - apply Z.ltb_lt in Hcmp. repeat split; intros; lia || reflexivity.
  - apply Z.ltb_ge in Hcmp. repeat split; intros; lia || reflexivity.
Qed.

(** A run of updates without a relative pose, from a static track that has
    already counted [uncertain_frames u] of them. *)
Lemma ObserveFrames_unavailable_static (obs : list (TrackFrame * MotionEstimate)) :
  Forall (fun o => snd o = None) obs ->
  forall u : UpdateState,
    track_state_ (us_track u) = kStatic ->
    (uncertain_frames u + Z.of_nat (length obs)
       <= kMaxUncertainFramesStatic (us_track u) ->
     track_state_ (us_track (ObserveFrames u obs)) = kStatic)
    /\ (obs <> [] ->
        uncertain_frames u + Z.of_nat (length obs)
          = kMaxUncertainFramesStatic (us_track u) + 1 ->
        track_state_ (us_track (ObserveFrames u obs)) = kUncertain).
Proof.
  induction 1 as [| [f est] rest Hest Hrest IH]; intros u Hst.
  - split; [intros _; exact Hst | intros Hne; now destruct Hne].
  - simpl in Hest. subst est.
    destruct (ObserveFrame_unavailable_static u f Hst) as (Hk & Hstay & Hleave).
    cbn zeta in Hk, Hstay, Hleave.
    unfold ObserveFrames. cbn [foldl]. fold (ObserveFrames (ObserveFrame u (f, None)) rest).
    cbn [length]. split.
    + intros Hle. destruct Hstay as [Hst' Hc']; [lia|].
      destruct (IH _ Hst') as [IHstay _]. apply IHstay. rewrite Hk, Hc'. lia.
    + intros _ Heq. destruct rest as [| o rest'].
      * cbn [ObserveFrames foldl]. apply Hleave. simpl in Heq. lia.
      * destruct Hstay as [Hst' Hc']; [simpl in Heq; lia|].
        destruct (IH _ Hst') as [_ IHleave]. apply IHleave; [discriminate|].
        rewrite Hk, Hc'. simpl length in *. lia.
Qed.

(** C6: in the transition policy of [Update], a static track that sees
    consecutive updates without a relative pose stays static while the
    count of them does not exceed [kMaxUncertainFramesStatic] and reverts
    to uncertain on the update that makes the count exceed it; with the
    default of 3 that is the fourth update and not the third.  An
    uncertain track whose update has a residual below the threshold
    becomes static in that update. *)
Theorem Update_transition_policy :
  (forall (u : UpdateState) (obs : list (TrackFrame * MotionEstimate)),
     track_state_ (us_track u) = kStatic ->
     uncertain_frames u = 0 ->
     0 <= kMaxUncertainFramesStatic (us_track u) ->
     Forall (fun o => snd o = None) obs ->
     (Z.of_nat (length obs) <= kMaxUncertainFramesStatic (us_track u) ->
      GetState (us_track (ObserveFrames u obs)) = kStatic)
     /\ (Z.of_nat (length obs) = kMaxUncertainFramesStatic (us_track u) + 1 ->
         GetState (us_track (ObserveFrames u obs)) = kUncertain))
  /\ (forall (u : UpdateState) (pose : Matrix4d) (residual : spec_float),
        track_state_ (us_track u) = kUncertain ->
        float_compare residual (kTransErrorTreshold (us_track u)) = Some Lt ->
        GetState (us_track (Update (Some (pose, residual)) u)) = kStatic
        /\ uncertain_frames (Update (Some (pose, residual)) u) = 0)
  /\ (forall id : Z,
        kMaxUncertainFramesStatic (Track_ctor id) = 3
        /\ kTransErrorTreshold (Track_ctor id) = float_0_20
        /\ float_compare float_0_05 float_0_20 = Some Lt).
Proof.
  split; [|split].
  - intros u obs Hst Hc Hmax Hall.
    destruct (ObserveFrames_unavailable_static obs Hall u Hst) as [Hstay Hleave].
    unfold GetState. split.
    + intros Hle. apply Hstay. lia.
    + intros Heq. apply Hleave; [|lia].
      intros ->. simpl in Heq. lia.
  - intros u pose residual Hst Hlt. unfold GetState, Update, next_state.
    rewrite Hst, Hlt. split; reflexivity.
  - intros id. repeat split.
Qed.

(** *** The pose chain *)



End TrackProperties.

(** ** The product [0.33 * n], exactly *)
Section ExactProduct.

(** The exact quotient by [2^54] of the literal's numerator times [a] is
    the quotient of [33 * a] by 100: the literal is close enough to 33/100
    for every magnitude an [int] can have. *)
Lemma mantissa_quotient (a : Z) :
  0 <= a <= 2 ^ 31 ->
  double_0_33_mantissa * a / 2 ^ 54 = 33 * a / 100.
Proof.
  intros Ha. unfold double_0_33_mantissa.
  pose proof (Z.div_mod (33 * a) 100 ltac:(lia)) as Hdm.
  pose proof (Z.mod_pos_bound (33 * a) 100 ltac:(lia)) as Hr.
  symmetry. apply Z.div_unique with (r := 5944751508129055 * a - 2 ^ 54 * (33 * a / 100)).
  - left. lia.
  - lia.
Qed.

(** In binary64 the product [0.33 * n] is a float whose integer part is
    the quotient of [33 * |n|] by 100: rounding to 53 bits never carries
    the product up to the next integer. *)
Lemma product_0_33_exact (n : Z) :
  n <> 0 -> Z.abs n <= 2 ^ 31 ->
  exists (m' : positive) (e' : Z),
    double_mul double_0_33 (double_of_int n) = S754_finite (n <? 0) m' e'
    /\ Z.shiftl (Z.pos m') e' = 33 * Z.abs n / 100.
Proof.
  intros Hn Habs.
  destruct (double_of_int_finite n Hn) as (m & e & Hof & He & Hm); [lia|].
  rewrite Hof. unfold double_mul, double_0_33, SFmul.
  rewrite Bool.xorb_false_l.
  set (K := (5944751508129055 * m)%positive).
  set (a := Z.abs n) in *.
  assert (Ha : 0 <= a <= 2 ^ 31) by (subst a; lia).
  set (E2 := 2 ^ (- e)) in *.
  assert (HE2 : 0 < E2) by (apply Z.pow_pos_nonneg; lia).
  assert (HK : Z.pos K = double_0_33_mantissa * (a * E2))
    by (subst K; rewrite Pos2Z.inj_mul, Hm; unfold double_0_33_mantissa; lia).
  assert (HY : a * E2 <= 2 ^ 31 * E2) by (apply Z.mul_le_mono_nonneg_r; lia).
  assert (HY0 : 0 <= a * E2) by (apply Z.mul_nonneg_nonneg; lia).
  assert (Hcut : Z.pos K / 2 ^ (54 - e) = 33 * a / 100).
  { rewrite <- mantissa_quotient by lia. rewrite HK.
    replace (2 ^ (54 - e)) with (2 ^ 54 * E2)
      by (subst E2; rewrite <- Z.pow_add_r by lia; f_equal; lia).
    rewrite Z.mul_assoc. apply Z.div_mul_cancel_r; lia. }
  assert (HKhi : Z.pos K < 2 ^ (85 - e)).
  { rewrite HK. replace (2 ^ (85 - e)) with (2 ^ 85 * E2)
      by (subst E2; rewrite <- Z.pow_add_r by lia; f_equal; lia).
    unfold double_0_33_mantissa. lia. }
  pose proof (Zdigits2_le K (85 - e) ltac:(lia) HKhi) as Hd.
  destruct (Z_le_gt_dec (Zdigits2 (Z.pos K)) 53) as [Hsmall | Hbig].
  - exists K, (-54 + e). split.
    + apply binary_round_aux_exact; lia.
    + rewrite Z.shiftl_div_pow2 by lia.
      replace (- (-54 + e)) with (54 - e) by lia. exact Hcut.
  - destruct (binary_round_aux_inexact (n <? 0) K (-54 + e)) as (m' & q & Hr & Hq & Hb);
      [lia | lia | lia |].
    exists m', (-54 + e + q). split; [assumption|].
    rewrite Z.shiftl_div_pow2 by lia.
    set (s := - (-54 + e + q)).
    assert (Hs : 21 <= s) by (subst s; lia).
    set (P := 2 ^ q) in *. set (S := 2 ^ s).
    assert (HP : 0 < P) by (apply Z.pow_pos_nonneg; lia).
    assert (HS : 0 < S) by (apply Z.pow_pos_nonneg; lia).
    assert (HPS : P * S = 2 ^ 54 * E2).
    { subst P S E2 s. rewrite <- !Z.pow_add_r by lia. f_equal. lia. }
    assert (HPhi : P <= 2 ^ 33 * E2).
    { subst P E2. rewrite <- Z.pow_add_r by lia. apply Z.pow_le_mono_r; lia. }
    (* the quotient and remainder of [33 * a] by 100, scaled by [E2] *)
    pose proof (Z.div_mod (33 * a) 100 ltac:(lia)) as Hdm.
    pose proof (Z.mod_pos_bound (33 * a) 100 ltac:(lia)) as Hrem.
    set (F := 33 * a / 100) in *. set (r := (33 * a) mod 100) in *.
    assert (HF0 : 0 <= F) by (subst F; apply Z.div_pos; lia).
    assert (HYE : 33 * (a * E2) = 100 * (F * E2) + r * E2) by lia.
    assert (HrE : 0 <= r * E2 <= 99 * E2)
      by (split; [apply Z.mul_nonneg_nonneg | apply Z.mul_le_mono_nonneg_r]; lia).
    assert (HFE : 0 <= F * E2) by (apply Z.mul_nonneg_nonneg; lia).
    (* what rounding leaves of [K]: [K / P <= m' <= K / P + 1] *)
    pose proof (Z.mul_div_le (Z.pos K) P HP) as Hfloor.
    assert (Hup : Z.pos m' * P <= Z.pos K + P).
    { transitivity (P * (Z.pos K / P + 1)); [|lia].
      rewrite (Z.mul_comm (Z.pos m')). apply Z.mul_le_mono_nonneg_l; lia. }
    unfold double_0_33_mantissa in HK.
    symmetry. apply Z.div_unique with (r := Z.pos m' - S * F).
    + left. split.
      * (* [F * S <= m'] *)
        assert (Hlow : F * S <= Z.pos K / P).
        { apply Z.div_le_lower_bound; [lia|].
          replace (P * (F * S)) with (2 ^ 54 * (F * E2))
            by (transitivity (F * (P * S)); [rewrite HPS; ring | ring]).
          lia. }
        lia.
      * (* [m' < (F + 1) * S] *)
        destruct (Z_lt_le_dec (Z.pos m') ((F + 1) * S)) as [Hlt | Hge]; [lia|].
        exfalso.
        assert (Hbig' : (F + 1) * S * P <= Z.pos m' * P)
          by (apply Z.mul_le_mono_nonneg_r; lia).
        replace ((F + 1) * S * P) with (2 ^ 54 * (F * E2) + 2 ^ 54 * E2) in Hbig'
          by (transitivity ((F + 1) * (P * S)); [rewrite HPS; ring | ring]).
        lia.
    + lia.
Qed.

(** X1: The conversion [static_cast<int>(0.33 * n)] is defined for every [int]
    and yields the quotient of [33 * n] by 100 truncated toward zero. *)
Lemma int_of_product_0_33 (n : Z) :
  int_range n ->
  int_of_double (double_mul double_0_33 (double_of_int n))
    = Returns (Z.quot (33 * n) 100).
Proof.
  unfold int_range, INT_MIN, INT_MAX. intros Hr.
  destruct (Z.eq_dec n 0) as [-> | Hn]; [reflexivity|].
  destruct (product_0_33_exact n Hn) as (m' & e' & Hmul & Hval); [lia|].
  rewrite Hmul. unfold int_of_double. rewrite Hval.
  assert (Hq : 0 <= 33 * Z.abs n / 100 <= 2 ^ 30).
  { split; [apply Z.div_pos; lia|]. apply Z.div_le_upper_bound; lia. }
  destruct (Z.ltb_spec n 0) as [Hneg | Hpos].
  - replace (int_rangeb (- (33 * Z.abs n / 100))) with true
      by (symmetry; unfold int_rangeb, INT_MIN, INT_MAX;
          apply andb_true_intro; split; apply Z.leb_le; lia).
    f_equal. replace (33 * n) with (- (33 * Z.abs n)) by lia.
    rewrite Z.quot_opp_l, Z.quot_div_nonneg by lia. reflexivity.
  - replace (int_rangeb (33 * Z.abs n / 100)) with true
      by (symmetry; unfold int_rangeb, INT_MIN, INT_MAX;
          apply andb_true_intro; split; apply Z.leb_le; lia).
    f_equal. rewrite Z.abs_eq by lia. rewrite Z.quot_div_nonneg by lia. reflexivity.
Qed.

End ExactProduct.

(** ** Further properties of the header's member functions *)
Section TrackCallProperties.

Context `{Collaborators}.

(** *** Counting and reaping *)

(** The clamped truncated quotient as a step function of the count. *)
Lemma reap_weight_truncated_steps (n : Z) :
  (reap_weight_truncated n = 1 <-> n <= 6)
  /\ (reap_weight_truncated n = 2 <-> 7 <= n <= 9)
  /\ (reap_weight_truncated n = 3 <-> 10 <= n <= 12)
  /\ (reap_weight_truncated n = 4 <-> 13 <= n <= 15)
  /\ (reap_weight_truncated n = 5 <-> 16 <= n).
Proof.
  unfold reap_weight_truncated, clamp.
  destruct (Z_lt_le_dec n 0) as [Hneg | Hpos].
  - assert (Hq : Z.quot (33 * n) 100 <= 0).
    { replace (33 * n) with (- (33 * - n)) by lia. rewrite Z.quot_opp_l by lia.
      pose proof (Z.quot_pos (33 * - n) 100). lia. }
    lia.
  - rewrite Z.quot_div_nonneg by lia.
    pose proof (Z.div_mod (33 * n) 100 ltac:(lia)) as Hdm.
    pose proof (Z.mod_pos_bound (33 * n) 100 ltac:(lia)) as Hr.
    lia.
Qed.

(** X3: The weight never decreases when more frames have been fused. *)
Theorem reap_weight_monotone (n m : Z) :
  int_range n -> int_range m -> n <= m ->
  exists wn wm : Z,
    reap_weight n = Returns wn /\ reap_weight m = Returns wm /\ wn <= wm.
Proof.
  intros Hn Hm Hle.
  exists (reap_weight_truncated n), (reap_weight_truncated m).
  split; [now apply reap_weight_truncates|].
  split; [now apply reap_weight_truncates|].
  pose proof (reap_weight_truncated_steps n) as (n1 & n2 & n3 & n4 & n5).
  pose proof (reap_weight_truncated_steps m) as (m1 & m2 & m3 & m4 & m5).
  pose proof (reap_weight_truncated_range n).
  pose proof (reap_weight_truncated_range m).
  lia.
Qed.

(** X2: [ReapReconstruction] reaps with weight 1 up to 6 fused frames, 2 for
    7 to 9, 3 for 10 to 12, 4 for 13 to 15 and 5 from 16 on. *)
Theorem ReapReconstruction_steps (t : Track) (volume : InfiniTamDriver) :
  reconstruction_ t = Some volume ->
  int_range (fused_frames_ t) ->
  exists (line : string) (w : Z),
    ReapReconstruction t = Returns [Cout line; Reap volume w]
    /\ (w = 1 <-> fused_frames_ t <= 6)
    /\ (w = 2 <-> 7 <= fused_frames_ t <= 9)
    /\ (w = 3 <-> 10 <= fused_frames_ t <= 12)
    /\ (w = 4 <-> 13 <= fused_frames_ t <= 15)
    /\ (w = 5 <-> 16 <= fused_frames_ t).
Proof.
  intros Hvol Hrange. unfold ReapReconstruction.
  rewrite (reap_weight_truncates _ Hrange), outcome_bind_returns, Hvol.
  eexists _, (reap_weight_truncated (fused_frames_ t)).
  split; [reflexivity | apply reap_weight_truncated_steps].
Qed.

Lemma CountFusedFrame_returns (t : Track) :
  fused_frames_ t < INT_MAX ->
  exists t',
    CountFusedFrame t = Returns t'
    /\ fused_frames_ t' = fused_frames_ t + 1
    /\ frames_ t' = frames_ t
    /\ reconstruction_ t' = reconstruction_ t
    /\ needs_cleanup_ t' = needs_cleanup_ t
    /\ track_state_ t' = track_state_ t
    /\ id_ t' = id_ t.
Proof.
  intros Hlt. unfold CountFusedFrame.
  replace (fused_frames_ t <? INT_MAX) with true by (symmetry; now apply Z.ltb_lt).
  eexists. split; [reflexivity|]. repeat split.
Qed.

Lemma CountFusedFrames_run (k : nat) :
  forall t : Track,
    fused_frames_ t + Z.of_nat k <= INT_MAX ->
    exists t',
      CountFusedFrames k t = Returns t'
      /\ fused_frames_ t' = fused_frames_ t + Z.of_nat k
      /\ frames_ t' = frames_ t
      /\ reconstruction_ t' = reconstruction_ t
      /\ needs_cleanup_ t' = needs_cleanup_ t
      /\ track_state_ t' = track_state_ t
      /\ id_ t' = id_ t.
Proof.
  induction k as [| k IH]; intros t Hle.
  - exists t. cbn [CountFusedFrames]. repeat split. lia.
  - destruct (CountFusedFrame_returns t ltac:(lia))
      as (t1 & Hcall & Hf & Hfr & Hrec & Hnc & Hst & Hid).
    destruct (IH t1 ltac:(lia)) as (t' & Hrun & Hf' & Hfr' & Hrec' & Hnc' & Hst' & Hid').
    exists t'. cbn [CountFusedFrames]. rewrite Hcall, outcome_bind_returns.
    repeat split; try congruence. lia.
Qed.

(** X4: [k] calls of [CountFusedFrame] that stay within the [int] range add
    [k] to the counter and change nothing that the accessors show: the
    frames, the reconstruction handle, the cleanup flag, the state, the
    id, the first fusable frame and the eligibility are as before. *)
Theorem CountFusedFrames_adds (k : nat) (t : Track) :
  fused_frames_ t + Z.of_nat k <= INT_MAX ->
  exists t',
    CountFusedFrames k t = Returns t'
    /\ fused_frames_ t' = fused_frames_ t + Z.of_nat k
    /\ GetFrames t' = GetFrames t
    /\ GetReconstruction t' = GetReconstruction t
    /\ NeedsCleanup t' = NeedsCleanup t
    /\ GetState t' = GetState t
    /\ GetId t' = GetId t
    /\ GetFirstFusableFrameIndex t' = GetFirstFusableFrameIndex t
    /\ EligibleForReconstruction t' = EligibleForReconstruction t.
Proof.
  intros Hle.
  destruct (CountFusedFrames_run k t Hle) as (t' & Hrun & Hf & Hfr & Hrec & Hnc & Hst & Hid).
  exists t'.
  unfold GetFrames, GetReconstruction, NeedsCleanup, GetState, GetId,
    GetFirstFusableFrameIndex, EligibleForReconstruction, GetSize.
  rewrite Hfr. repeat split; assumption.
Qed.

(** X5: A run of [CountFusedFrame] calls that would take the counter past the
    largest [int] is undefined. *)
Theorem CountFusedFrames_overflow (k : nat) :
  forall t : Track,
    fused_frames_ t <= INT_MAX ->
    INT_MAX < fused_frames_ t + Z.of_nat k ->
    CountFusedFrames k t = Undefined.
Proof.
  induction k as [| k IH]; intros t Hle Hgt; [lia|].
  cbn [CountFusedFrames].
  destruct (Z_lt_le_dec (fused_frames_ t) INT_MAX) as [Hlt | Hge].
  - destruct (CountFusedFrame_returns t Hlt) as (t1 & Hcall & Hf & _).
    rewrite Hcall, outcome_bind_returns. apply IH; lia.
  - unfold CountFusedFrame.
    replace (fused_frames_ t <? INT_MAX) with false by (symmetry; now apply Z.ltb_ge).
    reflexivity.
Qed.

(** X6: On a track that owns a volume and has fused nothing yet, [k] calls of
    [CountFusedFrame] followed by [ReapReconstruction] reap that volume
    with a weight that is 1 exactly up to the sixth call and 5 exactly
    from the sixteenth on. *)
Theorem CountFusedFrames_then_reap (k : nat) (t : Track) (volume : InfiniTamDriver) :
  reconstruction_ t = Some volume ->
  fused_frames_ t = 0 ->
  Z.of_nat k <= INT_MAX ->
  exists (t' : Track) (line : string) (w : Z),
    CountFusedFrames k t = Returns t'
    /\ ReapReconstruction t' = Returns [Cout line; Reap volume w]
    /\ 1 <= w <= 5
    /\ (w = 1 <-> (k <= 6)%nat)
    /\ (w = 5 <-> (16 <= k)%nat).
Proof.
  intros Hvol Hzero Hk.
  destruct (CountFusedFrames_run k t ltac:(lia)) as (t' & Hrun & Hf & _ & Hrec & _).
  assert (Hrange : int_range (fused_frames_ t'))
    by (unfold int_range, INT_MIN, INT_MAX in *; lia).
  exists t'. unfold ReapReconstruction.
  rewrite (reap_weight_truncates _ Hrange), outcome_bind_returns, Hrec, Hvol.
  eexists _, (reap_weight_truncated (fused_frames_ t')).
  split; [exact Hrun|]. split; [reflexivity|].
  pose proof (reap_weight_truncated_steps (fused_frames_ t')) as (H1 & _ & _ & _ & H5).
  pose proof (reap_weight_truncated_range (fused_frames_ t')).
  repeat split; try lia.
Qed.

(** *** The first fusable frame, continued *)

(** One iteration of the loop at position [k]. *)
Lemma first_fusable_loop_step (frames : list TrackFrame) (remaining k : nat) :
  first_fusable_loop frames (S remaining) (Z.of_nat k)
  = match frames !! k with
    | None => Undefined
    | Some g =>
        match relative_pose g with
        | None => Undefined
        | Some (Some _) => Returns (Z.max 0 (Z.of_nat k - 1))
        | Some None => first_fusable_loop frames remaining (Z.of_nat (S k))
        end
    end.
Proof.
  cbn [first_fusable_loop]. unfold vector_at.
  replace (Z.of_nat k <? 0) with false by (symmetry; apply Z.ltb_ge; lia).
  rewrite Nat2Z.id. destruct (frames !! k) as [g |]; [|reflexivity].
  rewrite outcome_bind_returns.
  destruct (relative_pose g) as [[pose |] |]; try reflexivity.
  cbn [deref]. rewrite outcome_bind_returns. cbn [IsPresent].
  replace (Z.of_nat k + 1) with (Z.of_nat (S k)) by lia. reflexivity.
Qed.

(** A loop that ends with -1 has seen only absent relative poses. *)
Lemma first_fusable_loop_none_inv (frames : list TrackFrame) (remaining : nat) :
  forall k : nat,
    first_fusable_loop frames remaining (Z.of_nat k) = Returns (-1) ->
    forall j, (k <= j < k + remaining)%nat ->
      exists g, frames !! j = Some g /\ relative_pose g = Some None.
Proof.
  induction remaining as [| r IH]; intros k Hrun j Hj; [lia|].
  rewrite first_fusable_loop_step in Hrun.
  destruct (frames !! k) as [g |] eqn:Hg; [|discriminate].
  destruct (relative_pose g) as [[pose |] |] eqn:Hp; try discriminate.
  - injection Hrun as Hrun. lia.
  - destruct (Nat.eq_dec j k) as [-> | Hne]; [eauto|].
    apply (IH (S k) Hrun). lia.
Qed.

(** A loop that ends with another result stopped at a stored frame. *)
Lemma first_fusable_loop_found_inv (frames : list TrackFrame) (remaining : nat) :
  forall (k : nat) (r : Z),
    first_fusable_loop frames remaining (Z.of_nat k) = Returns r ->
    r <> -1 ->
    exists (i : nat) (f : TrackFrame) (pose : Matrix4d),
      (k <= i < k + remaining)%nat
      /\ frames !! i = Some f
      /\ relative_pose f = Some (Some pose)
      /\ r = Z.max 0 (Z.of_nat i - 1).
Proof.
  induction remaining as [| rem IH]; intros k r Hrun Hr.
  - cbn in Hrun. congruence.
  - rewrite first_fusable_loop_step in Hrun.
    destruct (frames !! k) as [g |] eqn:Hg; [|discriminate].
    destruct (relative_pose g) as [[pose |] |] eqn:Hp; try discriminate.
    + injection Hrun as <-. exists k, g, pose. repeat split; try assumption; lia.
    + destruct (IH (S k) r Hrun Hr) as (i & f & pose & Hi & Hf & Hpf & Heq).
      exists i, f, pose. repeat split; try assumption; lia.
Qed.

(** The loop meets a pointer that was never assigned. *)
Lemma first_fusable_loop_unassigned (frames : list TrackFrame) (i : nat)
    (f : TrackFrame) (remaining : nat) :
  frames !! i = Some f ->
  relative_pose f = None ->
  forall k : nat,
    (k <= i < k + remaining)%nat ->
    (forall j, (k <= j < i)%nat ->
       exists g, frames !! j = Some g /\ relative_pose g = Some None) ->
    first_fusable_loop frames remaining (Z.of_nat k) = Undefined.
Proof.
  intros Hf Hp. induction remaining as [| r IH]; intros k Hk Hall; [lia|].
  rewrite first_fusable_loop_step.
  destruct (Nat.eq_dec k i) as [-> | Hne].
  - rewrite Hf, Hp. reflexivity.
  - destruct (Hall k ltac:(lia)) as (g & Hg & Hgp). rewrite Hg, Hgp.
    apply IH; [lia|]. intros j Hj. apply Hall. lia.
Qed.

Lemma GetFirstFusableFrameIndex_loop (t : Track) :
  GetSize t <= INT_MAX ->
  GetFirstFusableFrameIndex t
  = first_fusable_loop (frames_ t) (length (frames_ t)) (Z.of_nat 0).
Proof.
  intros Hsize. unfold GetFirstFusableFrameIndex.
  rewrite to_int_small by (unfold GetSize in *; lia).
  unfold GetSize. rewrite Nat2Z.id.
  destruct (frames_ t); reflexivity.
Qed.

(** X7: [GetFirstFusableFrameIndex] returns -1 exactly on the tracks all of
    whose frames have an absent relative pose (an empty track among
    them). *)
Theorem GetFirstFusableFrameIndex_none_iff (t : Track) :
  GetSize t <= INT_MAX ->
  (GetFirstFusableFrameIndex t = Returns (-1)
   <-> Forall (fun f => relative_pose f = Some None) (frames_ t)).
Proof.
  intros Hsize. rewrite (GetFirstFusableFrameIndex_loop t Hsize). split.
  - intros Hrun. rewrite Forall_lookup. intros j g Hg.
    pose proof (lookup_lt_Some _ _ _ Hg) as Hlt.
    destruct (first_fusable_loop_none_inv _ _ _ Hrun j ltac:(lia)) as (g' & Hg' & Hp).
    congruence.
  - intros Hall. apply first_fusable_loop_none. intros j Hj.
    destruct (lookup_lt_is_Some_2 (frames_ t) j ltac:(lia)) as [g Hg].
    exists g. split; [assumption|].
    rewrite Forall_lookup in Hall. exact (Hall j g Hg).
Qed.

(** X8: A result other than -1 is a position of the frame vector, at most the
    one before the last (or position 0 of a one-frame track), and the frame
    right after it or at it has a present relative pose. *)
Theorem GetFirstFusableFrameIndex_in_bounds (t : Track) (r : Z) :
  GetSize t <= INT_MAX ->
  GetFirstFusableFrameIndex t = Returns r ->
  r <> -1 ->
  0 <= r < GetSize t
  /\ r <= Z.max 0 (GetSize t - 2)
  /\ (exists f, GetFrame r t = Returns f)
  /\ (exists f pose,
        (GetFrame r t = Returns f \/ GetFrame (r + 1) t = Returns f)
        /\ relative_pose f = Some (Some pose)).
Proof.
  intros Hsize Hrun Hr. rewrite (GetFirstFusableFrameIndex_loop t Hsize) in Hrun.
  destruct (first_fusable_loop_found_inv _ _ _ _ Hrun Hr) as (i & f & pose & Hi & Hf & Hp & ->).
  pose proof (lookup_lt_Some _ _ _ Hf) as Hlt. unfold GetSize, GetFrame.
  destruct i as [| i'].
  - (* the first frame itself *)
    change (Z.max 0 (Z.of_nat 0 - 1)) with (Z.of_nat 0).
    rewrite (vector_at_lookup _ _ _ Hf).
    repeat split; try lia; eauto.
  - replace (Z.max 0 (Z.of_nat (S i') - 1)) with (Z.of_nat i') by lia.
    destruct (lookup_lt_is_Some_2 (frames_ t) i' ltac:(lia)) as [g Hg].
    rewrite (vector_at_lookup _ _ _ Hg).
    replace (Z.of_nat i' + 1) with (Z.of_nat (S i')) by lia.
    rewrite (vector_at_lookup _ _ _ Hf).
    repeat split; try lia; eauto.
Qed.

(** X9: When the scan reaches a frame whose [relative_pose] was never
    assigned, which is how the [TrackFrame] constructor leaves it, before
    it finds a present pose, the call is undefined. *)
Theorem GetFirstFusableFrameIndex_unassigned (t : Track)
    (pre : list TrackFrame) (f : TrackFrame) (post : list TrackFrame) :
  GetSize t <= INT_MAX ->
  frames_ t = pre ++ f :: post ->
  Forall (fun g => relative_pose g = Some None) pre ->
  relative_pose f = None ->
  GetFirstFusableFrameIndex t = Undefined.
Proof.
  intros Hsize Hfr Hpre Hp. rewrite (GetFirstFusableFrameIndex_loop t Hsize).
  apply first_fusable_loop_unassigned with (i := length pre) (f := f).
  - rewrite Hfr. now apply list_lookup_middle.
  - assumption.
  - rewrite Hfr, length_app. simpl. lia.
  - intros j Hj. rewrite Hfr, lookup_app_l by lia.
    destruct (lookup_lt_is_Some_2 pre j ltac:(lia)) as [g Hg].
    exists g. split; [assumption|].
    rewrite Forall_lookup in Hpre. exact (Hpre j g Hg).
Qed.

(** A loop that found a present pose finds the same one when frames are
    appended and the bound grows with them. *)
Lemma first_fusable_loop_extend (frames extra : list TrackFrame)
    (remaining more : nat) :
  forall (k : nat) (r : Z),
    first_fusable_loop frames remaining (Z.of_nat k) = Returns r ->
    r <> -1 ->
    first_fusable_loop (frames ++ extra) (remaining + more) (Z.of_nat k) = Returns r.
Proof.
  induction remaining as [| rem IH]; intros k r Hrun Hr.
  - cbn in Hrun. congruence.
  - rewrite first_fusable_loop_step in Hrun.
    change (S rem + more)%nat with (S (rem + more)).
    rewrite first_fusable_loop_step.
    destruct (frames !! k) as [g |] eqn:Hg; [|discriminate].
    rewrite (lookup_app_l_Some _ _ _ _ Hg).
    destruct (relative_pose g) as [[pose |] |]; try discriminate.
    + exact Hrun.
    + now apply IH.
Qed.

(** X10: Once [GetFirstFusableFrameIndex] has found a frame, adding further
    frames does not move its result. *)
Theorem GetFirstFusableFrameIndex_AddFrame_stable (t : Track) (f : TrackFrame) (r : Z) :
  GetSize t < INT_MAX ->
  GetFirstFusableFrameIndex t = Returns r ->
  r <> -1 ->
  GetFirstFusableFrameIndex (AddFrame f t) = Returns r.
Proof.
  intros Hsize Hrun Hr.
  rewrite (GetFirstFusableFrameIndex_loop t ltac:(lia)) in Hrun.
  rewrite GetFirstFusableFrameIndex_loop
    by (unfold GetSize in *; simpl; rewrite length_app; simpl; lia).
  simpl frames_. rewrite length_app. simpl length.
  now apply first_fusable_loop_extend.
Qed.

(** X11: On a track without any present relative pose, adding a frame that has
    one makes the frame before it, the last frame so far, the first
    fusable one (position 0 when the track was empty). *)
Theorem GetFirstFusableFrameIndex_AddFrame_first_pose (t : Track) (f : TrackFrame)
    (pose : Matrix4d) :
  GetSize t < INT_MAX ->
  GetFirstFusableFrameIndex t = Returns (-1) ->
  relative_pose f = Some (Some pose) ->
  GetFirstFusableFrameIndex (AddFrame f t) = Returns (Z.max 0 (GetSize t - 1)).
Proof.
  intros Hsize Hrun Hp.
  rewrite (GetFirstFusableFrameIndex_loop t ltac:(lia)) in Hrun.
  rewrite GetFirstFusableFrameIndex_loop
    by (unfold GetSize in *; simpl; rewrite length_app; simpl; lia).
  simpl frames_. unfold GetSize.
  apply first_fusable_loop_found with (f := f) (pose := pose).
  - now apply list_lookup_middle.
  - assumption.
  - rewrite length_app. simpl. lia.
  - intros j Hj. rewrite lookup_app_l by lia.
    apply (first_fusable_loop_none_inv _ _ _ Hrun). lia.
Qed.

(** *** Accessors *)

(** X12: [GetFrame] is defined exactly for the positions below the size.
    [GetLastFrame] reads position [size - 1] and [GetStartTime] position 0,
    defined or not, and [GetEndTime] is the index of the last frame. *)
Theorem accessors_agree (t : Track) (i : Z) :
  ((exists f, GetFrame i t = Returns f) <-> 0 <= i < GetSize t)
  /\ (GetFrame i t = Undefined <-> ~ 0 <= i < GetSize t)
  /\ GetLastFrame t = GetFrame (GetSize t - 1) t
  /\ GetStartTime t = (f ← GetFrame 0 t; mret (frame_idx f))
  /\ GetEndTime t = (f ← GetFrame (GetSize t - 1) t; mret (frame_idx f)).
Proof.
  unfold GetFrame, GetLastFrame, GetStartTime, GetEndTime, GetSize.
  assert (Hat : forall j, vector_at (frames_ t) j
                  = if (0 <=? j) && (j <? Z.of_nat (length (frames_ t)))
                    then match frames_ t !! Z.to_nat j with
                         | Some a => Returns a | None => Undefined end
                    else Undefined).
  { intros j. unfold vector_at.
    destruct (Z.ltb_spec j 0) as [Hneg | Hpos].
    - replace (0 <=? j) with false by (symmetry; apply Z.leb_gt; lia). reflexivity.
    - replace (0 <=? j) with true by (symmetry; apply Z.leb_le; lia).
      destruct (Z.ltb_spec j (Z.of_nat (length (frames_ t)))) as [Hin | Hout];
        [reflexivity|].
      rewrite lookup_ge_None_2 by lia. reflexivity. }
  assert (Hback : vector_back (frames_ t)
                  = vector_at (frames_ t) (Z.of_nat (length (frames_ t)) - 1)).
  { unfold vector_back. rewrite last_lookup. unfold vector_at.
    destruct (frames_ t) as [| f0 rest]; [reflexivity|].
    replace (Z.of_nat (length (f0 :: rest)) - 1 <? 0) with false
      by (symmetry; apply Z.ltb_ge; simpl length; lia).
    replace (Z.to_nat (Z.of_nat (length (f0 :: rest)) - 1))
      with (Nat.pred (length (f0 :: rest))) by (simpl length; lia).
    reflexivity. }
  split; [|split; [|split; [|split]]].
  - rewrite Hat. split.
    + intros [f Hf].
      destruct (Z.leb_spec 0 i), (Z.ltb_spec i (Z.of_nat (length (frames_ t))));
        simpl in Hf; try discriminate. lia.
    + intros Hi.
      replace ((0 <=? i) && (i <? Z.of_nat (length (frames_ t)))) with true
        by (symmetry; apply andb_true_intro; split; [apply Z.leb_le | apply Z.ltb_lt]; lia).
      destruct (lookup_lt_is_Some_2 (frames_ t) (Z.to_nat i) ltac:(lia)) as [f Hf].
      rewrite Hf. eauto.
  - rewrite Hat. split.
    + intros Hu Hi.
      replace ((0 <=? i) && (i <? Z.of_nat (length (frames_ t)))) with true in Hu
        by (symmetry; apply andb_true_intro; split; [apply Z.leb_le | apply Z.ltb_lt]; lia).
      destruct (lookup_lt_is_Some_2 (frames_ t) (Z.to_nat i) ltac:(lia)) as [f Hf].
      rewrite Hf in Hu. discriminate.
    + intros Hi.
      destruct (Z.leb_spec 0 i), (Z.ltb_spec i (Z.of_nat (length (frames_ t))));
        simpl; try reflexivity. lia.
  - exact Hback.
  - unfold vector_front, vector_at. simpl. destruct (frames_ t); reflexivity.
  - now rewrite Hback.
Qed.

Lemma AddFrames_frames (frames : list TrackFrame) :
  forall t : Track, frames_ (AddFrames frames t) = frames_ t ++ frames.
Proof.
  induction frames as [| f rest IH]; intros t.
  - simpl. now rewrite app_nil_r.
  - unfold AddFrames. cbn [foldl]. fold (AddFrames rest (AddFrame f t)).
    rewrite IH. simpl. now rewrite <- app_assoc.
Qed.

Lemma AddFrames_members (frames : list TrackFrame) :
  forall t : Track,
    reconstruction_ (AddFrames frames t) = reconstruction_ t
    /\ needs_cleanup_ (AddFrames frames t) = needs_cleanup_ t
    /\ track_state_ (AddFrames frames t) = track_state_ t
    /\ fused_frames_ (AddFrames frames t) = fused_frames_ t
    /\ id_ (AddFrames frames t) = id_ t.
Proof.
  induction frames as [| f rest IH]; intros t; [repeat split|].
  unfold AddFrames. cbn [foldl]. fold (AddFrames rest (AddFrame f t)).
  destruct (IH (AddFrame f t)) as (H1 & H2 & H3 & H4 & H5).
  repeat split; assumption.
Qed.

(** X13: A track built from a constructed one by adding the frames of a list
    stores exactly that list: the start time is the index of the first
    frame added, whatever follows, the end time that of the last, and the
    size the number of calls. *)
Theorem AddFrames_fresh (id : Z) (f : TrackFrame) (frames : list TrackFrame) :
  GetFrames (AddFrames (f :: frames) (Track_ctor id)) = f :: frames
  /\ GetSize (AddFrames (f :: frames) (Track_ctor id)) = Z.of_nat (length frames) + 1
  /\ GetStartTime (AddFrames (f :: frames) (Track_ctor id)) = Returns (frame_idx f)
  /\ GetEndTime (AddFrames (f :: frames) (Track_ctor id))
     = Returns (frame_idx (default f (last frames)))
  /\ GetId (AddFrames (f :: frames) (Track_ctor id)) = id.
Proof.
  unfold GetFrames, GetSize, GetStartTime, GetEndTime, GetId.
  rewrite AddFrames_frames. simpl frames_. simpl app.
  destruct (AddFrames_members (f :: frames) (Track_ctor id)) as (_ & _ & _ & _ & Hid).
  repeat split.
  - simpl length. lia.
  - unfold vector_back.
    rewrite last_cons. destruct (last frames); reflexivity.
  - exact Hid.
Qed.

(** X14: Eligibility is never lost by adding a frame, and a constructed track
    becomes eligible with its sixth frame. *)
Theorem EligibleForReconstruction_AddFrames (t : Track) (f : TrackFrame)
    (id : Z) (frames : list TrackFrame) :
  (EligibleForReconstruction t = true ->
   EligibleForReconstruction (AddFrame f t) = true)
  /\ (EligibleForReconstruction (AddFrames frames (Track_ctor id)) = true
      <-> (6 <= length frames)%nat).
Proof.
  unfold EligibleForReconstruction, GetSize. split.
  - simpl. rewrite length_app. simpl. intros Ht. apply Z.leb_le in Ht.
    apply Z.leb_le. lia.
  - rewrite AddFrames_frames. simpl. rewrite Z.leb_le. lia.
Qed.

(** X15: After [AddFrame f] the class name of the track is that of [f]; the
    call is defined whatever the track was before. *)
Theorem GetClassName_AddFrame (t : Track) (f : TrackFrame) :
  GetClassName (AddFrame f t) = Returns (InstanceView_ClassName (instance_view f)).
Proof.
  unfold GetClassName, GetLastFrame. rewrite Bool.orb_true_r. cbn [assert].
  rewrite outcome_bind_returns. simpl frames_. rewrite vector_back_snoc.
  reflexivity.
Qed.

(** *** Members that the calls leave alone *)

(** X16: [SetNeedsCleanup], [AddFrame] and [CountFusedFrame] write different
    members: the flag reads back as set, the last write wins, the calls
    can be exchanged, and neither the flag nor the frames change what
    [ReapReconstruction] does. *)
Theorem mutators_commute (t : Track) (b b' : bool) (f : TrackFrame) :
  NeedsCleanup (SetNeedsCleanup b t) = b
  /\ SetNeedsCleanup b (SetNeedsCleanup b' t) = SetNeedsCleanup b t
  /\ AddFrame f (SetNeedsCleanup b t) = SetNeedsCleanup b (AddFrame f t)
  /\ CountFusedFrame (SetNeedsCleanup b t)
     = (t' ← CountFusedFrame t; mret (SetNeedsCleanup b t'))
  /\ CountFusedFrame (AddFrame f t) = (t' ← CountFusedFrame t; mret (AddFrame f t'))
  /\ ReapReconstruction (SetNeedsCleanup b t) = ReapReconstruction t
  /\ ReapReconstruction (AddFrame f t) = ReapReconstruction t
  /\ GetFirstFusableFrameIndex (SetNeedsCleanup b t) = GetFirstFusableFrameIndex t
  /\ NeedsCleanup (AddFrame f t) = NeedsCleanup t.
Proof.
  repeat split.
  - unfold CountFusedFrame. cbn [fused_frames_ SetNeedsCleanup].
    destruct (fused_frames_ t <? INT_MAX); reflexivity.
  - unfold CountFusedFrame. cbn [fused_frames_ AddFrame].
    destruct (fused_frames_ t <? INT_MAX); reflexivity.
Qed.

(** X17: The label tells the state: two tracks have the same label exactly
    when they are in the same state. *)
Theorem GetStateLabel_injective (t1 t2 : Track) :
  GetStateLabel t1 = GetStateLabel t2 <-> GetState t1 = GetState t2.
Proof.
  unfold GetStateLabel, GetState. split.
  - destruct (track_state_ t1), (track_state_ t2); intros Heq;
      reflexivity || discriminate Heq.
  - now intros ->.
Qed.

Lemma string_length_app (s1 s2 : string) :
  String.length (s1 +:+ s2) = (String.length s1 + String.length s2)%nat.
Proof.
  induction s1 as [| a s1 IH]; [reflexivity|].
  change (String.length (String a s1 +:+ s2)) with (S (String.length (s1 +:+ s2))).
  rewrite IH. reflexivity.
Qed.

Lemma string_app_cancel_r (s1 s2 t : string) :
  s1 +:+ t = s2 +:+ t -> s1 = s2.
Proof.
  revert s2. induction s1 as [| a s1 IH]; intros s2 Heq.
  - destruct s2 as [| b s2]; [reflexivity|].
    apply (f_equal String.length) in Heq.
    rewrite !string_length_app in Heq. simpl in Heq. lia.
  - destruct s2 as [| b s2].
    + apply (f_equal String.length) in Heq.
      rewrite !string_length_app in Heq. simpl in Heq. lia.
    + change (String a (s1 +:+ t) = String b (s2 +:+ t)) in Heq.
      injection Heq as -> Heq. f_equal. now apply IH.
Qed.

(** X18: The destructor is silent exactly on the tracks without a
    reconstruction; on the others it writes one line, and the lines of two
    tracks agree only when their ids do. *)
Theorem Track_dtor_line (t1 t2 : Track) :
  (Track_dtor t1 = [] <-> HasReconstruction t1 = false)
  /\ (HasReconstruction t1 = true -> length (Track_dtor t1) = 1%nat)
  /\ (HasReconstruction t1 = true -> HasReconstruction t2 = true ->
      Track_dtor t1 = Track_dtor t2 -> GetId t1 = GetId t2).
Proof.
  unfold Track_dtor, HasReconstruction, GetId. split; [|split].
  - destruct (reconstruction_ t1); split; intros Heq; try reflexivity; discriminate.
  - destruct (reconstruction_ t1); [reflexivity | discriminate].
  - destruct (reconstruction_ t1); [|discriminate].
    destruct (reconstruction_ t2); [|discriminate].
    intros _ _ Heq. injection Heq as Heq.
    apply String.app_inj in Heq. apply string_app_cancel_r in Heq.
    now apply (inj pretty) in Heq.
Qed.

(** X19: Calls of [AddFrame], [SetNeedsCleanup] and [CountFusedFrame] on a
    constructed track never change its state, never give it a
    reconstruction and keep the counter within the [int] range; so
    [ReapReconstruction] stays undefined and the destructor silent until
    the caller installs a volume through [GetReconstruction]. *)
Theorem header_reachable_invariant (t : Track) :
  header_reachable t ->
  GetState t = kUncertain
  /\ HasReconstruction t = false
  /\ 0 <= fused_frames_ t <= INT_MAX
  /\ kMaxUncertainFramesStatic t = 3
  /\ kMaxUncertainFramesDynamic t = 2
  /\ kTransErrorTreshold t = float_0_20
  /\ ReapReconstruction t = Undefined
  /\ Track_dtor t = [].
Proof.
  intros Hreach.
  assert (Hinv : track_state_ t = kUncertain
                 /\ reconstruction_ t = None
                 /\ 0 <= fused_frames_ t <= INT_MAX
                 /\ kMaxUncertainFramesStatic t = 3
                 /\ kMaxUncertainFramesDynamic t = 2
                 /\ kTransErrorTreshold t = float_0_20).
  { induction Hreach as [id | t f _ IH | t b _ IH | t t' _ IH Hcall].
    - repeat split; unfold INT_MAX; simpl; lia.
    - exact IH.
    - exact IH.
    - unfold CountFusedFrame in Hcall.
      destruct (Z.ltb_spec (fused_frames_ t) INT_MAX) as [Hlt | Hge]; [|discriminate].
      injection Hcall as <-. simpl.
      destruct IH as (H1 & H2 & H3 & H4 & H5 & H6).
      repeat split; try assumption; lia. }
  destruct Hinv as (Hst & Hrec & Hf & Hs & Hd & Hthr).
  unfold GetState, HasReconstruction, Track_dtor, ReapReconstruction.
  rewrite reap_weight_truncates
    by (unfold int_range, INT_MIN, INT_MAX in *; lia).
  rewrite outcome_bind_returns, Hrec.
  repeat split; try assumption; try reflexivity; lia.
Qed.

End TrackCallProperties.

(** ** The model on concrete tracks *)

#[local] Existing Instance sample_collaborators.

(** C1: with 15 fused frames the volume is reaped with weight 4, while
    the rounded formula gives 5. *)
Lemma ReapReconstruction_weight_15_is_4 :
  ReapReconstruction (sample_track [] (Some 7%nat) 15)
    = Returns [Cout ("Reaping track with max weight [4]." +:+ endl); Reap 7%nat 4]
  /\ reap_weight_rounded 15 = 5
  /\ reap_weight 15 <> Returns (reap_weight_rounded 15).
Proof. repeat split. vm_compute. discriminate. Qed.

Lemma ReapReconstruction_weight_witness :
  exists w : Z,
    ReapReconstruction (sample_track [] (Some 7%nat) 15)
      = Returns [Cout ("Reaping track with max weight [" +:+ pretty w +:+ "]." +:+ endl);
                 Reap 7%nat w]
    /\ w = 4.
Proof.
  destruct (ReapReconstruction_weight (sample_track [] (Some 7%nat) 15) 7%nat)
    as (w & Hcall & _ & _ & _ & _ & H15).
  - reflexivity.
  - unfold int_range, INT_MIN, INT_MAX. simpl. lia.
  - exists w. split; [exact Hcall | apply H15; reflexivity].
Defined.

(** C8: on a fresh track, which owns no volume, [ReapReconstruction] runs
    into undefined behaviour; no assertion stops it. *)
Lemma ReapReconstruction_no_volume_unchecked :
  HasReconstruction (@Track_ctor sample_collaborators 0) = false
  /\ ReapReconstruction (@Track_ctor sample_collaborators 0) = Undefined
  /\ forall msg : string,
       ReapReconstruction (@Track_ctor sample_collaborators 0) <> AssertionFailed msg.
Proof. repeat split. intros msg. vm_compute. discriminate. Qed.

Lemma ReapReconstruction_precondition_witness :
  (exists (volume : nat) (line : string) (w : Z),
     GetReconstruction (sample_track [] (Some 7%nat) 15) = Some volume
     /\ ReapReconstruction (sample_track [] (Some 7%nat) 15)
        = Returns [Cout line; Reap volume w])
  /\ ReapReconstruction (sample_track [] None 15) = Undefined.
Proof.
  split.
  - apply (ReapReconstruction_precondition (sample_track [] (Some 7%nat) 15)).
    + unfold int_range, INT_MIN, INT_MAX. simpl. lia.
    + reflexivity.
  - apply (ReapReconstruction_precondition (sample_track [] None 15)).
    + unfold int_range, INT_MIN, INT_MAX. simpl. lia.
    + reflexivity.
Defined.

(** C3: a track without frames that owns a volume. *)
Lemma GetClassName_empty_track_witness :
  GetClassName (sample_track [] (Some 3%nat) 7) = Undefined.
Proof.
  apply (GetClassName_empty_track 0 (sample_track [] (Some 3%nat) 7)).
  reflexivity.
Defined.

(** C2: four frames of which only the one at position 2 has a relative
    pose; the first fusable frame is at index 1. *)
Lemma GetFirstFusableFrameIndex_witness :
  GetSize (sample_track [sample_frame 11 (Some None); sample_frame 12 (Some None);
                         sample_frame 13 (Some (Some 5)); sample_frame 16 (Some None)]
                        None 0) <= INT_MAX
  /\ GetFirstFusableFrameIndex
       (sample_track [sample_frame 11 (Some None); sample_frame 12 (Some None);
                      sample_frame 13 (Some (Some 5)); sample_frame 16 (Some None)]
                     None 0) = Returns 1.
Proof.
  split; [vm_compute; discriminate|].
  eapply (GetFirstFusableFrameIndex_spec
            (sample_track [sample_frame 11 (Some None); sample_frame 12 (Some None);
                           sample_frame 13 (Some (Some 5)); sample_frame 16 (Some None)]
                          None 0)).
  - vm_compute. discriminate.
  - reflexivity.
  - reflexivity.
  - reflexivity.
  - reflexivity.
Defined.

(** C2: a track holding one frame as the [TrackFrame] constructor makes
    it.  No frame has a present relative pose, yet the call does not
    return -1: it dereferences the pointer that was never assigned. *)
Lemma GetFirstFusableFrameIndex_unassigned_pointer :
  let t := AddFrame (@TrackFrame_ctor sample_collaborators 11 "car" tt) (Track_ctor 0) in
  GetSize t = 1
  /\ Forall (fun f => forall pose, relative_pose f <> Some (Some pose)) (GetFrames t)
  /\ GetFirstFusableFrameIndex t = Undefined
  /\ GetFirstFusableFrameIndex t <> Returns (-1).
Proof.
  cbv zeta. split; [reflexivity|]. split; [|split].
  - repeat constructor. intros pose. discriminate.
  - reflexivity.
  - discriminate.
Qed.

(** C4: frames added with indices 5 and then 3 are stored in that order;
    the start time is 5, above the stored index 3 and above the end time. *)
Lemma AddFrame_out_of_order :
  let t := AddFrame (sample_frame 3 None) (AddFrame (sample_frame 5 None) (Track_ctor 0)) in
  GetStartTime t = Returns 5
  /\ GetEndTime t = Returns 3
  /\ GetFrame 1 t = Returns (sample_frame 3 None)
  /\ ~ (forall s i f, GetStartTime t = Returns s -> GetFrame i t = Returns f ->
          s <= frame_idx f).
Proof.
  repeat split. intros Hclaim.
  specialize (Hclaim 5 1 (sample_frame 3 None) eq_refl eq_refl).
  simpl in Hclaim. lia.
Qed.

Lemma AddFrame_in_order_witness :
  exists (s e : Z),
    GetStartTime (AddFrame (sample_frame 13 None)
                    (AddFrame (sample_frame 11 None) (Track_ctor 0))) = Returns s
    /\ GetEndTime (AddFrame (sample_frame 13 None)
                     (AddFrame (sample_frame 11 None) (Track_ctor 0))) = Returns e
    /\ s = 11 /\ e = 13.
Proof.
  destruct (AddFrame_in_order_invariant
              (AddFrame (sample_frame 13 None)
                 (AddFrame (sample_frame 11 None) (Track_ctor 0))))
    as (s & e & Hs & He & _).
  - apply in_frame_order_add.
    + apply in_frame_order_add.
      * apply in_frame_order_fresh.
      * intros e0 He0. discriminate He0.
    + intros e0 He0. injection He0 as <-. simpl. lia.
  - vm_compute. discriminate.
  - exists s, e. repeat split; try assumption.
    + injection Hs as <-. reflexivity.
    + injection He as <-. reflexivity.
Defined.


(** C6: the scenario of a fresh track whose first update has residual
    0.05: it becomes static, is still static after three updates without a
    relative pose, and is uncertain after the fourth. *)
Lemma Update_transition_policy_witness :
  let u0 := {| us_track := Track_ctor 0; uncertain_frames := 0 |} in
  let u1 := ObserveFrame u0 (sample_frame 11 None, Some (1, float_0_05)) in
  let gap (i : Z) := (sample_frame i None, None : MotionEstimate) in
  GetState (us_track u1) = kStatic
  /\ GetState (us_track (ObserveFrames u1 [gap 12; gap 13; gap 14])) = kStatic
  /\ GetState (us_track (ObserveFrames u1 [gap 12; gap 13; gap 14; gap 15])) = kUncertain.
Proof.
  intros u0 u1 gap.
  destruct (@Update_transition_policy sample_collaborators) as (Hrun & Hfirst & _).
  split; [|split].
  - apply (Hfirst {| us_track := AddFrame (sample_frame 11 None) (Track_ctor 0);
                     uncertain_frames := 0 |} 1 float_0_05); reflexivity.
  - apply (Hrun u1 [gap 12; gap 13; gap 14]); try reflexivity.
    + vm_compute. discriminate.
    + repeat constructor.
  - apply (Hrun u1 [gap 12; gap 13; gap 14; gap 15]); try reflexivity.
    + vm_compute. discriminate.
    + repeat constructor.
Defined.


(** C10: adding a frame to a track of two frames keeps the frame at
    position 1. *)
Lemma AddFrame_effect_witness :
  GetFrame 1 (AddFrame (sample_frame 13 None)
                (sample_track [sample_frame 11 None; sample_frame 12 None] None 0))
  = GetFrame 1 (sample_track [sample_frame 11 None; sample_frame 12 None] None 0).
Proof.
  apply (AddFrame_effect
           (sample_track [sample_frame 11 None; sample_frame 12 None] None 0)
           (sample_frame 13 None)).
  vm_compute. split; [discriminate | reflexivity].
Defined.

(** *** Further properties on concrete tracks *)

Lemma int_of_product_0_33_witness :
  int_of_double (double_mul double_0_33 (double_of_int (-7))) = Returns (-2).
Proof.
  apply (int_of_product_0_33 (-7)).
  unfold int_range, INT_MIN, INT_MAX. lia.
Defined.

Lemma ReapReconstruction_steps_witness :
  exists (line : string) (w : Z),
    ReapReconstruction (sample_track [] (Some 7%nat) 16)
      = Returns [Cout line; Reap 7%nat w]
    /\ w = 5.
Proof.
  destruct (ReapReconstruction_steps (sample_track [] (Some 7%nat) 16) 7%nat)
    as (line & w & Hcall & _ & _ & _ & _ & H5).
  - reflexivity.
  - unfold int_range, INT_MIN, INT_MAX. simpl. lia.
  - exists line, w. split; [exact Hcall|]. apply H5. simpl. lia.
Defined.

Lemma reap_weight_monotone_witness :
  exists wn wm : Z,
    reap_weight 6 = Returns wn /\ reap_weight 7 = Returns wm /\ wn <= wm.
Proof.
  apply (reap_weight_monotone 6 7); unfold int_range, INT_MIN, INT_MAX; lia.
Defined.

Lemma CountFusedFrames_adds_witness :
  exists t',
    CountFusedFrames 3 (sample_track [sample_frame 11 None] (Some 7%nat) 4) = Returns t'
    /\ fused_frames_ t' = 7.
Proof.
  destruct (CountFusedFrames_adds 3 (sample_track [sample_frame 11 None] (Some 7%nat) 4))
    as (t' & Hrun & Hf & _).
  - unfold INT_MAX. simpl. lia.
  - exists t'. split; [exact Hrun | exact Hf].
Defined.

Lemma CountFusedFrames_overflow_witness :
  CountFusedFrames 2 (sample_track [] None 2147483646) = Undefined.
Proof.
  apply (CountFusedFrames_overflow 2 (sample_track [] None 2147483646));
    unfold INT_MAX; simpl; lia.
Defined.

Lemma CountFusedFrames_then_reap_witness :
  exists (t' : Track) (line : string) (w : Z),
    CountFusedFrames 16 (sample_track [] (Some 7%nat) 0) = Returns t'
    /\ ReapReconstruction t' = Returns [Cout line; Reap 7%nat w]
    /\ w = 5.
Proof.
  destruct (CountFusedFrames_then_reap 16 (sample_track [] (Some 7%nat) 0) 7%nat)
    as (t' & line & w & Hrun & Hreap & _ & _ & H5).
  - reflexivity.
  - reflexivity.
  - unfold INT_MAX. simpl. lia.
  - exists t', line, w. repeat split; try assumption. apply H5. lia.
Defined.

Lemma GetFirstFusableFrameIndex_none_iff_witness :
  GetFirstFusableFrameIndex
    (sample_track [sample_frame 11 (Some None); sample_frame 12 (Some None)] None 0)
  = Returns (-1).
Proof.
  apply (GetFirstFusableFrameIndex_none_iff
           (sample_track [sample_frame 11 (Some None); sample_frame 12 (Some None)] None 0)).
  - vm_compute. discriminate.
  - repeat constructor.
Defined.

Lemma GetFirstFusableFrameIndex_in_bounds_witness :
  0 <= 1 < GetSize (sample_track [sample_frame 11 (Some None); sample_frame 12 (Some None);
                                  sample_frame 13 (Some (Some 5))] None 0).
Proof.
  apply (GetFirstFusableFrameIndex_in_bounds
           (sample_track [sample_frame 11 (Some None); sample_frame 12 (Some None);
                          sample_frame 13 (Some (Some 5))] None 0) 1).
  - vm_compute. discriminate.
  - reflexivity.
  - discriminate.
Defined.

(** A frame as the [TrackFrame] constructor makes it, added to a
    constructed track. *)
Lemma GetFirstFusableFrameIndex_unassigned_witness :
  GetFirstFusableFrameIndex (AddFrame (@TrackFrame_ctor sample_collaborators 11 "car" tt) (Track_ctor 0))
  = Undefined.
Proof.
  apply (GetFirstFusableFrameIndex_unassigned
           (AddFrame (@TrackFrame_ctor sample_collaborators 11 "car" tt) (Track_ctor 0))
           [] (@TrackFrame_ctor sample_collaborators 11 "car" tt) []).
  - vm_compute. discriminate.
  - reflexivity.
  - constructor.
  - reflexivity.
Defined.

Lemma GetFirstFusableFrameIndex_AddFrame_stable_witness :
  GetFirstFusableFrameIndex
    (AddFrame (sample_frame 14 (Some (Some 3)))
       (sample_track [sample_frame 11 (Some None); sample_frame 12 (Some None);
                      sample_frame 13 (Some (Some 5))] None 0))
  = Returns 1.
Proof.
  apply (GetFirstFusableFrameIndex_AddFrame_stable
           (sample_track [sample_frame 11 (Some None); sample_frame 12 (Some None);
                          sample_frame 13 (Some (Some 5))] None 0)
           (sample_frame 14 (Some (Some 3))) 1).
  - vm_compute. reflexivity.
  - reflexivity.
  - discriminate.
Defined.

Lemma GetFirstFusableFrameIndex_AddFrame_first_pose_witness :
  GetFirstFusableFrameIndex
    (AddFrame (sample_frame 13 (Some (Some 5)))
       (sample_track [sample_frame 11 (Some None); sample_frame 12 (Some None)] None 0))
  = Returns 1.
Proof.
  apply (GetFirstFusableFrameIndex_AddFrame_first_pose
           (sample_track [sample_frame 11 (Some None); sample_frame 12 (Some None)] None 0)
           (sample_frame 13 (Some (Some 5))) 5).
  - vm_compute. reflexivity.
  - reflexivity.
  - reflexivity.
Defined.

Lemma EligibleForReconstruction_AddFrames_witness :
  EligibleForReconstruction
    (AddFrame (sample_frame 17 None)
       (sample_track (replicate 6 (sample_frame 1 None)) None 0)) = true.
Proof.
  apply (EligibleForReconstruction_AddFrames
           (sample_track (replicate 6 (sample_frame 1 None)) None 0)
           (sample_frame 17 None) 0 []).
  reflexivity.
Defined.

Lemma Track_dtor_line_witness :
  GetId (sample_track [] (Some 7%nat) 0) = GetId (sample_track [] (Some 8%nat) 3).
Proof.
  apply (Track_dtor_line (sample_track [] (Some 7%nat) 0) (sample_track [] (Some 8%nat) 3));
    reflexivity.
Defined.

Lemma header_reachable_invariant_witness :
  ReapReconstruction
    (SetNeedsCleanup true (AddFrame (sample_frame 11 None) (Track_ctor 4)))
  = Undefined.
Proof.
  apply (header_reachable_invariant
           (SetNeedsCleanup true (AddFrame (sample_frame 11 None) (Track_ctor 4)))).
  apply header_reachable_SetNeedsCleanup, header_reachable_AddFrame,
    header_reachable_ctor.
Defined.
